(** * BackendLending: the borrow-transaction lifecycle of [Lending.js]

    A shallow embedding of the three transaction routes of
    [src/Lending.js] and of the Mongoose collections they touch:

      - [POST /api/transactions]         (RequestBorrow,  lines 314-369)
      - [PUT  /api/transactions/:id]     (DecideRequest,  lines 451-493)
      - [POST /api/transactions/cancel]  (CancelOrReturn, lines 496-590)

    A collection is the list of its documents in insertion order; the
    position of a document in that list plays the role of MongoDB's [_id]:
    [findOne] returns the first match together with its position, and
    [save] of a loaded document writes back at that position.  The values
    that the handlers draw from their environment, [uuid()] and
    [new Date()], are arguments of the handlers.  A handler runs from its
    first query to its answer before the next one starts: two requests
    that interleave at their [await]s are outside this development. *)

From Stdlib Require Import ZArith String.
From stdpp Require Import base decidable option list strings gmap.

Local Open Scope Z_scope.
Local Open Scope string_scope.
Local Open Scope stdpp_scope.
Local Open Scope list_scope.

#[local] Set Warnings "-clear-no-such-hyp".

(** ** Schemas (lines 48-82) *)

(** [enum: ['available', 'borrowed']] *)
Inductive ItemStatus := available | borrowed.

(** [enum: ['pending', 'approved', 'rejected', 'cancelled']] *)
Inductive TxStatus := pending | approved | rejected | cancelled.

#[global] Instance ItemStatus_eq_dec : EqDecision ItemStatus.
Proof. solve_decision. Defined.

#[global] Instance TxStatus_eq_dec : EqDecision TxStatus.
Proof. solve_decision. Defined.

(** [status: { $in: ['pending', 'approved'] }], the filter the three
    routes use for a transaction that still claims its item. *)
Definition isActive (st : TxStatus) : Prop := st = pending ∨ st = approved.

#[global] Instance isActive_dec st : Decision (isActive st).
Proof. unfold isActive. apply _. Defined.

(** The two statuses from which the lifecycle has no way on. *)
Definition isTerminal (st : TxStatus) : Prop := st = rejected ∨ st = cancelled.

#[global] Instance isTerminal_dec st : Decision (isTerminal st).
Proof. unfold isTerminal. apply _. Defined.

(** Mongoose's [required: true] on a [String] path refuses the empty
    string (and a missing value, which a string-typed field cannot be). *)
Definition required (s : string) : Prop := s ≠ "".

#[global] Instance required_dec s : Decision (required s).
Proof. unfold required. apply _. Defined.

Module User.
(** [userSchema], lines 49-54. *)
Record t := mk
  { id : string; name : string; email : string; password : string }.

(** [User.findOne(filter)]: the first document that matches. *)
Definition findOne (P : t → Prop) `{∀ u, Decision (P u)}
    (coll : list t) : option t :=
  snd <$> list_find P coll.
End User.

Module Item.
(** [itemSchema], lines 58-64. *)
Record t := mk
  { id : string; name : string; description : string;
    ownerId : string; status : ItemStatus }.

Definition set_status (st : ItemStatus) (d : t) : t :=
  {| id := id d; name := name d; description := description d;
     ownerId := ownerId d; status := st |}.

(** [Item.findOne(filter)]: the first match and its position. *)
Definition findOne (P : t → Prop) `{∀ d, Decision (P d)}
    (coll : list t) : option (nat * t) :=
  list_find P coll.

(** [Item.findOneAndUpdate(filter, update, { new: true })]: the first
    match is updated in place and returned as updated; without a match
    nothing is written and the result is [null].  The route that omits
    [{ new: true }] (line 476) ignores the returned document.  The
    [lastUpdated] of line 526 is no path of the schema, and strict
    mode drops it from the update. *)
Definition findOneAndUpdate (P : t → Prop) `{∀ d, Decision (P d)}
    (upd : t → t) (coll : list t) : list t * option t :=
  match list_find P coll with
  | Some (n, d) => (<[n := upd d]> coll, Some (upd d))
  | None => (coll, None)
  end.
End Item.

Module Transaction.
(** [transactionSchema], lines 68-81.  A [Date] is its time value. *)
Record t := mk
  { id : string; itemId : string; lenderId : string; borrowerId : string;
    status : TxStatus; startDate : Z;
    endDate : option Z; borrowDate : option Z }.

Definition set_status (st : TxStatus) (d : t) : t :=
  {| id := id d; itemId := itemId d; lenderId := lenderId d;
     borrowerId := borrowerId d; status := st; startDate := startDate d;
     endDate := endDate d; borrowDate := borrowDate d |}.

Definition set_borrowDate (now : Z) (d : t) : t :=
  {| id := id d; itemId := itemId d; lenderId := lenderId d;
     borrowerId := borrowerId d; status := status d;
     startDate := startDate d; endDate := endDate d;
     borrowDate := Some now |}.

(** Schema validation run by [save()]: the four [required] paths.  The
    [enum] of [status] holds by typing. *)
Definition valid (d : t) : Prop :=
  required (id d) ∧ required (itemId d) ∧
  required (lenderId d) ∧ required (borrowerId d).

#[global] Instance valid_dec d : Decision (valid d).
Proof. unfold valid. apply _. Defined.

(** [Transaction.findOne(filter)]: the first match and its position. *)
Definition findOne (P : t → Prop) `{∀ d, Decision (P d)}
    (coll : list t) : option (nat * t) :=
  list_find P coll.

(** [doc.save()].  [h] is the position the document was loaded from,
    [None] for a document made with [new Transaction(...)].  The
    document is validated first; a new document is then inserted at
    the end unless the unique index on [id] (line 69) refuses it, a
    loaded one is written back in place.  [None] stands for the
    exception that [save()] throws. *)
Definition save (h : option nat) (d : t) (coll : list t) : option (list t) :=
  if decide (valid d) then
    match h with
    | None =>
        if decide (id d ∈ id <$> coll) then None else Some (coll ++ [d])
    | Some n => Some (<[n := d]> coll)
    end
  else None.

(** [Transaction.updateMany(filter, { $set: ... })]. *)
Definition updateMany (P : t → Prop) `{∀ d, Decision (P d)}
    (upd : t → t) (coll : list t) : list t :=
  (λ d, if decide (P d) then upd d else d) <$> coll.
End Transaction.

(** ** The database and the responses *)

Record DB := mkDB
  { users : list User.t;
    items : list Item.t;
    transactions : list Transaction.t }.

Definition with_items (its : list Item.t) (db : DB) : DB :=
  {| users := users db; items := its; transactions := transactions db |}.

Definition with_transactions (txs : list Transaction.t) (db : DB) : DB :=
  {| users := users db; items := items db; transactions := txs |}.

Inductive Missing := the_item | the_transaction | the_active_transaction.

Inductive ConflictReason := self_borrow | active_claim_exists.

(** What a route answers: its success payload, or the kind of failure. *)
Inductive Response :=
| Created (transaction : Transaction.t)
| Decided (transaction : Transaction.t)
| Returned (transaction : Transaction.t) (item : Item.t)
           (borrower lender : option User.t)
| NotFound (what : Missing)
| Conflict (why : ConflictReason)
| Forbidden
| InvalidArgument
| Internal.

(** [res.status(...)] of each answer. *)
Definition statusCode (r : Response) : Z :=
  match r with
  | Created _ => 201
  | Decided _ | Returned _ _ _ _ => 200
  | NotFound _ => 404
  | Conflict _ | InvalidArgument => 400
  | Forbidden => 403
  | Internal => 500
  end.

Definition isFailure (r : Response) : Prop :=
  match r with
  | Created _ | Decided _ | Returned _ _ _ _ => False
  | _ => True
  end.

#[global] Instance isFailure_dec r : Decision (isFailure r).
Proof. destruct r; simpl; apply _. Defined.

(** ** The three routes *)

(** The filter [{ itemId: itemId, status: { $in: ['pending', 'approved'] } }]
    of lines 334-337 and 539-542: a transaction that still claims item
    [i]. *)
Definition activeFor (i : string) (d : Transaction.t) : Prop :=
  Transaction.itemId d = i ∧ isActive (Transaction.status d).

#[global] Instance activeFor_dec i d : Decision (activeFor i d).
Proof. unfold activeFor. apply _. Defined.

(** The document of lines 346-353. *)
Definition borrow_request (itemId borrowerId uuid : string) (now : Z)
    (item : Item.t) : Transaction.t :=
  {| Transaction.id := uuid;
     Transaction.itemId := itemId;
     Transaction.borrowerId := borrowerId;
     Transaction.lenderId := Item.ownerId item;
     Transaction.status := pending;
     Transaction.startDate := now;
     Transaction.endDate := None;
     Transaction.borrowDate := None |}.

(** [POST /api/transactions], lines 314-369. *)
Definition post_transactions (db : DB) (itemId borrowerId : string)
    (uuid : string) (now : Z) : DB * Response :=
  match Item.findOne (λ d, Item.id d = itemId) (items db) with
  | None => (db, NotFound the_item)
  | Some (_, item) =>
      if decide (Item.ownerId item = borrowerId) then
        (db, Conflict self_borrow)
      else
        match Transaction.findOne (activeFor itemId) (transactions db) with
        | Some _ => (db, Conflict active_claim_exists)
        | None =>
            let transaction :=
              borrow_request itemId borrowerId uuid now item in
            match Transaction.save None transaction (transactions db) with
            | Some txs => (with_transactions txs db, Created transaction)
            | None => (db, Internal)
            end
        end
  end.

(** [['approved', 'rejected'].includes(status)], line 467. *)
Definition decision_of (status : string) : option TxStatus :=
  if decide (status = "approved") then Some approved
  else if decide (status = "rejected") then Some rejected
  else None.

(** [PUT /api/transactions/:id], lines 451-493. *)
Definition put_transactions_id (db : DB) (id userId status : string)
    (now : Z) : DB * Response :=
  match Transaction.findOne (λ d, Transaction.id d = id) (transactions db) with
  | None => (db, NotFound the_transaction)
  | Some (n, transaction) =>
      if decide (Transaction.lenderId transaction ≠ userId) then
        (db, Forbidden)
      else
        match decision_of status with
        | None => (db, InvalidArgument)
        | Some st =>
            let transaction := Transaction.set_status st transaction in
            let '(transaction, db) :=
              if decide (st = approved) then
                (Transaction.set_borrowDate now transaction,
                 with_items
                   (Item.findOneAndUpdate
                      (λ d, Item.id d = Transaction.itemId transaction)
                      (Item.set_status borrowed) (items db)).1 db)
              else (transaction, db) in
            match Transaction.save (Some n) transaction (transactions db) with
            | Some txs => (with_transactions txs db, Decided transaction)
            | None => (db, Internal)
            end
        end
  end.

(** [POST /api/transactions/cancel], lines 496-590. *)
Definition post_transactions_cancel (db : DB) (itemId borrowerId : string)
    : DB * Response :=
  match Transaction.findOne
          (λ d, Transaction.itemId d = itemId ∧
                Transaction.borrowerId d = borrowerId ∧
                isActive (Transaction.status d))
          (transactions db) with
  | None => (db, NotFound the_active_transaction)
  | Some (n, transaction) =>
      let transaction := Transaction.set_status cancelled transaction in
      match Transaction.save (Some n) transaction (transactions db) with
      | None => (db, Internal)
      | Some txs =>
          let db := with_transactions txs db in
          let '(its, item) :=
            Item.findOneAndUpdate (λ d, Item.id d = itemId)
              (Item.set_status available) (items db) in
          let db := with_items its db in
          match item with
          | None => (db, NotFound the_item)
          | Some item =>
              let db :=
                with_transactions
                  (Transaction.updateMany (activeFor itemId)
                     (Transaction.set_status cancelled) (transactions db))
                  db in
              let borrower :=
                User.findOne (λ u, User.id u = borrowerId) (users db) in
              let lender :=
                User.findOne
                  (λ u, User.id u = Transaction.lenderId transaction)
                  (users db) in
              (db, Returned transaction item borrower lender)
          end
      end
  end.

(** ** Sequences of Coordinator operations *)

Inductive Op :=
| RequestBorrow (itemId borrowerId uuid : string) (now : Z)
| DecideRequest (transactionId deciderId decision : string) (now : Z)
| CancelOrReturn (itemId borrowerId : string).

Definition step (db : DB) (op : Op) : DB * Response :=
  match op with
  | RequestBorrow i b u now => post_transactions db i b u now
  | DecideRequest t u st now => put_transactions_id db t u st now
  | CancelOrReturn i b => post_transactions_cancel db i b
  end.

Fixpoint run (db : DB) (ops : list Op) : DB :=
  match ops with
  | [] => db
  | op :: ops => run (step db op).1 ops
  end.

(** ** The invariants of the lifecycle *)

Definition activeCount (db : DB) (i : string) : nat :=
  length (filter (activeFor i) (transactions db)).

(** I1: at most one active transaction for each item. *)
Definition single_claim (db : DB) : Prop :=
  ∀ i, (activeCount db i ≤ 1)%nat.

Definition approvedFor (i : string) (d : Transaction.t) : Prop :=
  Transaction.itemId d = i ∧ Transaction.status d = approved.

Definition hasApproved (db : DB) (i : string) : Prop :=
  ∃ d, d ∈ transactions db ∧ approvedFor i d.

(** I2: an item is borrowed exactly when one of its transactions is
    approved. *)
Definition coupled (db : DB) : Prop :=
  ∀ it, it ∈ items db →
    Item.status it = borrowed ↔ hasApproved db (Item.id it).

(** What the schemas guarantee of a database filled through Mongoose: the
    unique index on the items' [id], and stored transactions that pass
    validation. *)
Definition conforms (db : DB) : Prop :=
  NoDup (Item.id <$> items db) ∧ Forall Transaction.valid (transactions db).

(** [allowed from to] restricts the decisions of a sequence: a
    [DecideRequest] that passes the checks of the route, on a transaction
    of status [from] and with decision [to], satisfies it. *)
Definition decides_only (allowed : TxStatus → TxStatus → Prop)
    (db : DB) (op : Op) : Prop :=
  match op with
  | DecideRequest tid uid decision _ =>
      match Transaction.findOne (λ d, Transaction.id d = tid)
              (transactions db), decision_of decision with
      | Some (_, d), Some st =>
          Transaction.lenderId d = uid → allowed (Transaction.status d) st
      | _, _ => True
      end
  | _ => True
  end.

(** The condition holds at every operation of the sequence, in the state
    the operation starts from. *)
Fixpoint along (ok : DB → Op → Prop) (db : DB) (ops : list Op) : Prop :=
  match ops with
  | [] => True
  | op :: ops => ok db op ∧ along ok (step db op).1 ops
  end.

(** No decision approves a transaction that is rejected or cancelled. *)
Definition no_revival (from to : TxStatus) : Prop :=
  ¬ (isTerminal from ∧ to = approved).

(** No decision rejects a transaction that is approved. *)
Definition no_unapproval (from to : TxStatus) : Prop :=
  ¬ (from = approved ∧ to = rejected).

(** §4.2, precondition 2: decisions are taken on pending transactions. *)
Definition from_pending (from to : TxStatus) : Prop := from = pending.

(** The document [PUT /api/transactions/:id] saves (lines 471-473). *)
Definition decided (st : TxStatus) (now : Z) (d : Transaction.t)
    : Transaction.t :=
  if decide (st = approved)
  then Transaction.set_borrowDate now (Transaction.set_status st d)
  else Transaction.set_status st d.

(** The items after the decision (lines 472-480). *)
Definition decided_items (st : TxStatus) (d : Transaction.t)
    (its : list Item.t) : list Item.t :=
  if decide (st = approved)
  then (Item.findOneAndUpdate (λ x, Item.id x = Transaction.itemId d)
          (Item.set_status borrowed) its).1
  else its.

(** ** A worked scenario

    Ann owns a drill; Bob and Cid borrow.  Dan is no registered user. *)

Definition ann : User.t := User.mk "U1" "Ann" "ann@example.org" "hash1".
Definition bob : User.t := User.mk "U2" "Bob" "bob@example.org" "hash2".
Definition cid : User.t := User.mk "U3" "Cid" "cid@example.org" "hash3".

Definition drill : Item.t :=
  {| Item.id := "I1"; Item.name := "drill";
     Item.description := "cordless drill"; Item.ownerId := "U1";
     Item.status := available |}.

Definition fresh : DB :=
  {| users := [ann; bob; cid]; items := [drill]; transactions := [] |}.

(** Request, approval, return. *)
Definition lifecycle : list Op :=
  [ RequestBorrow "I1" "U2" "T1" 10;
    DecideRequest "T1" "U1" "approved" 20;
    CancelOrReturn "I1" "U2" ].

(** Bob withdraws his request, Cid files one, and Ann then approves
    Bob's withdrawn request. *)
Definition revival : list Op :=
  [ RequestBorrow "I1" "U2" "T1" 10;
    CancelOrReturn "I1" "U2";
    RequestBorrow "I1" "U3" "T2" 20;
    DecideRequest "T1" "U1" "approved" 30 ].

(** Ann approves Bob's request and then rejects it. *)
Definition unapproval : list Op :=
  [ RequestBorrow "I1" "U2" "T1" 10;
    DecideRequest "T1" "U1" "approved" 20;
    DecideRequest "T1" "U1" "rejected" 30 ].

(** The database once Ann has approved Bob's request. *)
Definition lent : DB :=
  run fresh [ RequestBorrow "I1" "U2" "T1" 10;
              DecideRequest "T1" "U1" "approved" 20 ].

(** The database once Bob has withdrawn his request and Cid has filed
    one. *)
Definition withdrawn : DB :=
  run fresh [ RequestBorrow "I1" "U2" "T1" 10;
              CancelOrReturn "I1" "U2";
              RequestBorrow "I1" "U3" "T2" 20 ].

(** Bob's approved loan of an item that the items collection does not
    hold. *)
Definition loan : Transaction.t :=
  {| Transaction.id := "T1"; Transaction.itemId := "I1";
     Transaction.lenderId := "U1"; Transaction.borrowerId := "U2";
     Transaction.status := approved; Transaction.startDate := 10;
     Transaction.endDate := None; Transaction.borrowDate := Some 20 |}.

Definition orphaned : DB :=
  {| users := [ann; bob; cid]; items := []; transactions := [loan] |}.

(** ** The rest of the API

    The routes of [src/Lending.js] beside the three above: the user
    routes (lines 95-195), the item routes (lines 199-310) and the two
    listings of transactions (lines 372-448).  A field of a request body
    is a string; the empty string is the value that [!field] refuses. *)

(** What the routes use of [bcrypt] (line 9): [hash(password, salt)] and
    [compare(password, hash)].  The salt of [genSalt(10)] is an
    argument of the route. *)
Class Bcrypt := mkBcrypt
  { bcrypt_hash : string → string → string;
    bcrypt_compare : string → string → bool }.

(** [res.status(code).json(body)]; a failure carries its [message]. *)
Inductive Answer (A : Type) : Type :=
| Success (code : Z) (body : A)
| Failure (code : Z) (message : string).

Arguments Success {A} code body.
Arguments Failure {A} code message.

Definition failed {A} (a : Answer A) : Prop :=
  match a with Success _ _ => False | Failure _ _ => True end.

Definition with_users (us : list User.t) (db : DB) : DB :=
  {| users := us; items := items db; transactions := transactions db |}.

(** *** A JavaScript object used as a map

    [{}] filled by [map[key] = value] with object values and read by
    [map[key]].  An assignment to ["__proto__"] installs the value as
    the prototype of the map instead of storing a property; a read of a
    key that is no own property goes to the prototype: the installed
    one, or [Object.prototype] with its eleven methods. *)

Definition Object_prototype_methods : list string :=
  [ "constructor"; "__defineGetter__"; "__defineSetter__";
    "hasOwnProperty"; "__lookupGetter__"; "__lookupSetter__";
    "isPrototypeOf"; "propertyIsEnumerable"; "toString"; "valueOf";
    "toLocaleString" ].

Record JsObject (V : Type) := mkJsObject
  { own : gmap string V; proto : option V }.

Arguments mkJsObject {V} own proto.
Arguments own {V} _.
Arguments proto {V} _.

(** The outcome of [map[key]]: a value that was assigned under the key;
    a read that continues in the installed prototype [v]; the object
    [Object.prototype] itself; one of its methods; or [undefined]. *)
Inductive JsRead (V : Type) : Type :=
| Found (v : V)
| Inherited (v : V)
| ObjectPrototype
| Method
| Undefined.

Arguments Found {V} v.
Arguments Inherited {V} v.
Arguments ObjectPrototype {V}.
Arguments Method {V}.
Arguments Undefined {V}.

Definition js_empty {V} : JsObject V := mkJsObject ∅ None.

Definition js_set {V} (key : string) (value : V) (o : JsObject V)
    : JsObject V :=
  if decide (key = "__proto__") then mkJsObject (own o) (Some value)
  else mkJsObject (<[key := value]> (own o)) (proto o).

Definition js_get {V} (key : string) (o : JsObject V) : JsRead V :=
  if decide (key = "__proto__") then
    match proto o with Some v => Found v | None => ObjectPrototype end
  else
    match own o !! key with
    | Some v => Found v
    | None =>
        match proto o with
        | Some v => Inherited v
        | None =>
            if decide (key ∈ Object_prototype_methods) then Method
            else Undefined
        end
    end.

(** [docs.reduce((map, doc) => { map[key(doc)] = value(doc); return map },
    {})], lines 259-265, 405-408 and 418-425. *)
Definition reduce_to_map {A V} (key : A → string) (value : A → V)
    (docs : list A) : JsObject V :=
  foldl (λ map doc, js_set (key doc) (value doc) map) js_empty docs.

(** [[...new Set(xs)]]: the distinct strings of [xs], each at its first
    occurrence. *)
Definition new_Set (xs : list string) : list string :=
  reverse (remove_dups (reverse xs)).

(** *** User routes *)

(** [{ userId, name, email }] of the user answers, and the
    [{ id, name, email }] of line 419. *)
Record UserInfo := mkUserInfo
  { info_id : string; info_name : string; info_email : string }.

Definition user_info (u : User.t) : UserInfo :=
  {| info_id := User.id u; info_name := User.name u;
     info_email := User.email u |}.

(** The four [required] paths of [userSchema]. *)
Definition User_valid (u : User.t) : Prop :=
  required (User.id u) ∧ required (User.name u) ∧
  required (User.email u) ∧ required (User.password u).

#[global] Instance User_valid_dec u : Decision (User_valid u).
Proof. unfold User_valid. apply _. Defined.

(** [newUser.save()]: validation, then the unique indexes on [id] and
    [email] (lines 50 and 52). *)
Definition User_save (u : User.t) (coll : list User.t)
    : option (list User.t) :=
  if decide (User_valid u) then
    if decide (User.id u ∈ User.id <$> coll) then None
    else if decide (User.email u ∈ User.email <$> coll) then None
    else Some (coll ++ [u])
  else None.

(** [POST /api/users/register], lines 95-133. *)
Definition post_users_register `{Bcrypt} (db : DB)
    (name email password salt uuid : string) : DB * Answer UserInfo :=
  if decide (name = "" ∨ email = "" ∨ password = "") then
    (db, Failure 400 "All fields are required")
  else
    match User.findOne (λ u, User.email u = email) (users db) with
    | Some _ => (db, Failure 409 "Email already in use")
    | None =>
        let hashedPassword := bcrypt_hash password salt in
        let newUser :=
          {| User.id := uuid; User.name := name; User.email := email;
             User.password := hashedPassword |} in
        match User_save newUser (users db) with
        | Some us => (with_users us db, Success 201 (user_info newUser))
        | None => (db, Failure 500 "Registration failed. Please try again.")
        end
    end.

(** [POST /api/users/login], lines 136-160. *)
Definition post_users_login `{Bcrypt} (db : DB) (email password : string)
    : Answer UserInfo :=
  match User.findOne (λ u, User.email u = email) (users db) with
  | None => Failure 401 "Invalid email or password"
  | Some user =>
      if bcrypt_compare password (User.password user)
      then Success 200 (user_info user)
      else Failure 401 "Invalid email or password"
  end.

(** [GET /api/users/:userId], lines 163-184. *)
Definition get_users_userId (db : DB) (userId : string) : Answer UserInfo :=
  match User.findOne (λ u, User.id u = userId) (users db) with
  | None => Failure 404 "User not found"
  | Some user => Success 200 (user_info user)
  end.

(** [GET /api/users], lines 187-195: the stored documents as they are. *)
Definition get_users (db : DB) : Answer (list User.t) :=
  Success 200 (users db).

(** *** Item routes *)

(** [{ name, email }] of lines 227-230 and 260-263. *)
Record Owner := mkOwner { owner_name : string; owner_email : string }.

Definition owner_of (u : User.t) : Owner :=
  {| owner_name := User.name u; owner_email := User.email u |}.

(** The three [required] paths of [itemSchema]. *)
Definition Item_valid (d : Item.t) : Prop :=
  required (Item.name d) ∧ required (Item.description d) ∧
  required (Item.ownerId d).

#[global] Instance Item_valid_dec d : Decision (Item_valid d).
Proof. unfold Item_valid. apply _. Defined.

(** [newItem.save()]: validation, then the unique index on [id]
    (line 59). *)
Definition Item_save (d : Item.t) (coll : list Item.t)
    : option (list Item.t) :=
  if decide (Item_valid d) then
    if decide (Item.id d ∈ Item.id <$> coll) then None
    else Some (coll ++ [d])
  else None.

(** [POST /api/items], lines 199-237.  [uuid] is the [default] of the
    [id] path. *)
Definition post_items (db : DB) (name description ownerId uuid : string)
    : DB * Answer (Item.t * Owner) :=
  if decide (name = "" ∨ description = "" ∨ ownerId = "") then
    (db, Failure 400 "All fields are required")
  else
    match User.findOne (λ u, User.id u = ownerId) (users db) with
    | None => (db, Failure 404 "Owner not found")
    | Some owner =>
        let newItem :=
          {| Item.id := uuid; Item.name := name;
             Item.description := description;
             Item.ownerId := User.id owner; Item.status := available |} in
        match Item_save newItem (items db) with
        | Some its =>
            (with_items its db, Success 201 (newItem, owner_of owner))
        | None => (db, Failure 500 "Failed to create item")
        end
    end.






(** [PUT /api/items/:id], lines 286-310.  [available] is [None] when the
    body has no such field.  [available] is no path of [itemSchema], so
    strict mode drops it from the update: the document is found and
    returned as it is. *)
Definition put_items_id {V} (db : DB) (id : string) (available : option V)
    : DB * Answer Item.t :=
  match available with
  | None => (db, Failure 400 "Available status is required")
  | Some _ =>
      match Item.findOneAndUpdate (λ d, Item.id d = id) (λ d, d)
              (items db) with
      | (its, Some updatedItem) =>
          (with_items its db, Success 200 updatedItem)
      | (_, None) => (db, Failure 404 "Item not found")
      end
  end.

(** *** Listings of transactions *)

(** [GET /api/transactions], lines 372-380. *)
Definition get_transactions (db : DB) : Answer (list Transaction.t) :=
  Success 200 (transactions db).

(** The filter of lines 389-395. *)
Definition involves (userId : string) (d : Transaction.t) : Prop :=
  (Transaction.borrowerId d = userId ∨ Transaction.lenderId d = userId) ∧
  isActive (Transaction.status d).

#[global] Instance involves_dec userId d : Decision (involves userId d).
Proof. unfold involves. apply _. Defined.

(** An entry of lines 430-439. *)
Record Enriched := mkEnriched
  { e_id : string; e_itemId : string; e_borrowerId : string;
    e_lenderId : string; e_status : TxStatus;
    e_item : JsRead Item.t;
    e_borrower : JsRead UserInfo;
    e_lender : JsRead UserInfo }.

(** [GET /api/transactions/user/:userId], lines 383-448. *)
Definition get_transactions_user (db : DB) (userId : string)
    : Answer (list Enriched) :=
  let transactions := filter (involves userId) (transactions db) in
  let itemIds := new_Set (Transaction.itemId <$> transactions) in
  let items := filter (λ d, Item.id d ∈ itemIds) (items db) in
  let itemMap := reduce_to_map Item.id (λ d, d) items in
  let userIds :=
    new_Set ((Transaction.borrowerId <$> transactions) ++
             (Transaction.lenderId <$> transactions)) in
  let users := filter (λ u, User.id u ∈ userIds) (users db) in
  let userMap := reduce_to_map User.id user_info users in
  Success 200
    ((λ t, {| e_id := Transaction.id t;
              e_itemId := Transaction.itemId t;
              e_borrowerId := Transaction.borrowerId t;
              e_lenderId := Transaction.lenderId t;
              e_status := Transaction.status t;
              e_item := js_get (Transaction.itemId t) itemMap;
              e_borrower := js_get (Transaction.borrowerId t) userMap;
              e_lender := js_get (Transaction.lenderId t) userMap |})
       <$> transactions).

(** *** Sequences of calls that write *)

Inductive Call :=
| Coordinator (op : Op)
| Register (name email password salt uuid : string)
| AddItem (name description ownerId uuid : string)
| SetAvailable (id : string) (available : option bool).

Definition call `{Bcrypt} (db : DB) (c : Call) : DB :=
  match c with
  | Coordinator op => (step db op).1
  | Register n e p s u => (post_users_register db n e p s u).1
  | AddItem n d o u => (post_items db n d o u).1
  | SetAvailable i a => (put_items_id db i a).1
  end.

(** The call was answered with a failure. *)
Definition call_failed `{Bcrypt} (db : DB) (c : Call) : Prop :=
  match c with
  | Coordinator op => isFailure (step db op).2
  | Register n e p s u => failed (post_users_register db n e p s u).2
  | AddItem n d o u => failed (post_items db n d o u).2
  | SetAvailable i a => failed (put_items_id db i a).2
  end.

Fixpoint calls `{Bcrypt} (db : DB) (cs : list Call) : DB :=
  match cs with
  | [] => db
  | c :: cs => calls (call db c) cs
  end.

(** The database before any call. *)
Definition empty_db : DB := {| users := []; items := []; transactions := [] |}.

(** Every transaction is of a stored item and lent by its owner. *)
Definition referential (db : DB) : Prop :=
  ∀ t, t ∈ transactions db →
    ∃ it, it ∈ items db ∧ Item.id it = Transaction.itemId t ∧
          Item.ownerId it = Transaction.lenderId t.

(** The owner of every item is a stored user. *)
Definition owners_exist (db : DB) : Prop :=
  ∀ it, it ∈ items db → ∃ u, u ∈ users db ∧ User.id u = Item.ownerId it.

(** I3: nobody borrows from oneself. *)
Definition no_self_loan (db : DB) : Prop :=
  ∀ t, t ∈ transactions db →
    Transaction.borrowerId t ≠ Transaction.lenderId t.

(** The unique indexes of the three schemas. *)
Definition unique_keys (db : DB) : Prop :=
  NoDup (User.id <$> users db) ∧ NoDup (User.email <$> users db) ∧
  NoDup (Item.id <$> items db) ∧ NoDup (Transaction.id <$> transactions db).

(** [borrowDate] is set on the approval and at no other time. *)
Definition dated (db : DB) : Prop :=
  ∀ t, t ∈ transactions db →
    (Transaction.status t = pending → Transaction.borrowDate t = None) ∧
    (Transaction.status t = approved → is_Some (Transaction.borrowDate t)) ∧
    Transaction.endDate t = None.

(** What holds of a database that was filled through the API. *)
Definition api_built (db : DB) : Prop :=
  conforms db ∧ unique_keys db ∧ referential db ∧ owners_exist db ∧
  no_self_loan db ∧ dated db.

(** The parts of a document that no route writes after its creation. *)
Definition tx_key (d : Transaction.t)
    : string * string * string * string * Z * option Z :=
  (Transaction.id d, Transaction.itemId d, Transaction.lenderId d,
   Transaction.borrowerId d, Transaction.startDate d, Transaction.endDate d).

Definition item_key (d : Item.t) : string * string * string * string :=
  (Item.id d, Item.name d, Item.description d, Item.ownerId d).

(** A stand-in for [bcrypt] in the worked scenario. *)
Definition toy_bcrypt : Bcrypt :=
  {| bcrypt_hash := λ password salt, String.append salt password;
     bcrypt_compare := λ password hash,
       bool_decide (hash = String.append "s1" password ∨
                    hash = String.append "s2" password) |}.



(** Ann and Bob register, Ann lists her drill, Bob asks for it and Ann
    approves. *)
Definition api_scenario : list Call :=
  [ Register "Ann" "ann@example.org" "pw1" "s1" "U1";
    Register "Bob" "bob@example.org" "pw2" "s2" "U2";
    AddItem "drill" "cordless drill" "U1" "I1";
    Coordinator (RequestBorrow "I1" "U2" "T1" 10);
    Coordinator (DecideRequest "T1" "U1" "approved" 20) ].

Definition built : DB := @calls toy_bcrypt empty_db api_scenario.

(** Ann also owns a saw; Bob has asked for both tools. *)
Definition saw : Item.t :=
  {| Item.id := "I2"; Item.name := "saw"; Item.description := "hand saw";
     Item.ownerId := "U1"; Item.status := available |}.

Definition two_requests : DB :=
  run {| users := [ann; bob; cid]; items := [drill; saw];
         transactions := [] |}
      [ RequestBorrow "I1" "U2" "T1" 10; RequestBorrow "I2" "U2" "T2" 11 ].

Definition saw_entry : Enriched :=
  {| e_id := "T2"; e_itemId := "I2"; e_borrowerId := "U2";
     e_lenderId := "U1"; e_status := pending;
     e_item := Found saw;
     e_borrower := Found (user_info bob);
     e_lender := Found (user_info ann) |}.

(** ** Facts about collections *)

Section Collections.
Context {A : Type}.
Implicit Types (l : list A) (f : A → A).

Lemma count_insert_le (P : A → Prop) `{∀ x, Decision (P x)} l n x y :
  l !! n = Some x → (P y → P x) →
  (length (filter P (<[n := y]> l)) ≤ length (filter P l))%nat.
Proof.
  revert n. induction l as [|z l IH]; intros [|n] Hn Hyx; simplify_eq/=.
  - rewrite !filter_cons. repeat case_decide; simpl; try lia. tauto.
  - rewrite !filter_cons. specialize (IH n Hn Hyx).
    case_decide; simpl; lia.
Qed.

Lemma count_fmap_le (P : A → Prop) `{∀ x, Decision (P x)} f l :
  (∀ x, P (f x) → P x) →
  (length (filter P (f <$> l)) ≤ length (filter P l))%nat.
Proof.
  intros Hf. induction l as [|z l IH]; [done|].
  rewrite fmap_cons, !filter_cons. specialize (Hf z).
  repeat case_decide; simpl; try lia. tauto.
Qed.

Lemma count_none (P : A → Prop) `{∀ x, Decision (P x)} l :
  list_find P l = None → filter P l = [].
Proof.
  rewrite list_find_None. induction 1 as [|z l Hz _ IH]; [done|].
  rewrite filter_cons. by case_decide.
Qed.

Lemma exists_insert (Q : A → Prop) l n x y :
  l !! n = Some x → (Q x ↔ Q y) →
  (∃ z, z ∈ <[n := y]> l ∧ Q z) ↔ (∃ z, z ∈ l ∧ Q z).
Proof.
  intros Hn Hxy. split.
  - intros (z & [k Hk]%list_elem_of_lookup & Hz).
    apply list_lookup_insert_Some in Hk as [(Hkn & Hyz & _)|[_ Hk]].
    + subst k z. exists x. split; [by eapply list_elem_of_lookup_2|tauto].
    + exists z. split; [by eapply list_elem_of_lookup_2|done].
  - intros (z & [k Hk]%list_elem_of_lookup & Hz).
    destruct (decide (k = n)) as [->|Hne].
    + assert (z = x) as -> by congruence.
      exists y. split; [|tauto].
      eapply list_elem_of_lookup_2, list_lookup_insert_eq.
      by eapply lookup_lt_Some.
    + exists z. split; [|done].
      eapply list_elem_of_lookup_2. by rewrite list_lookup_insert_ne.
Qed.

Lemma exists_fmap (Q : A → Prop) f l :
  (∀ x, Q (f x) ↔ Q x) →
  (∃ z, z ∈ f <$> l ∧ Q z) ↔ (∃ z, z ∈ l ∧ Q z).
Proof.
  intros Hf. split.
  - intros (z & (x & -> & Hx)%list_elem_of_fmap & Hz).
    exists x. split; [done|]. by apply Hf.
  - intros (z & Hz & HQ). exists (f z). split; [|by apply Hf].
    by apply list_elem_of_fmap_2.
Qed.

(** The first match of a collection is a document of it that matches,
    and nothing before it does. *)
Lemma find_lookup (P : A → Prop) `{∀ x, Decision (P x)} l n x :
  list_find P l = Some (n, x) → l !! n = Some x ∧ P x.
Proof. rewrite list_find_Some. tauto. Qed.

(** Writing a matching document over the first match leaves it the
    first match. *)
Lemma find_insert (P : A → Prop) `{∀ x, Decision (P x)} l n x y :
  list_find P l = Some (n, x) → P y →
  list_find P (<[n := y]> l) = Some (n, y).
Proof.
  intros (Hn & _ & Hlt)%list_find_Some Hy. apply list_find_Some.
  split_and!; [|done|].
  - apply list_lookup_insert_eq. by eapply lookup_lt_Some.
  - intros j z Hj Hjn. rewrite list_lookup_insert_ne in Hj by lia. eauto.
Qed.

(** Under a unique key, an update of the first match by its key is an
    update of every document with that key. *)
Lemma insert_by_key {K} `{EqDecision K} (key : A → K) l n x y :
  NoDup (key <$> l) → l !! n = Some x →
  <[n := y]> l = (λ z, if decide (key z = key x) then y else z) <$> l.
Proof.
  intros Hnd Hn. apply list_eq. intros k. rewrite list_lookup_fmap.
  destruct (decide (k = n)) as [->|Hne].
  - rewrite list_lookup_insert_eq by (by eapply lookup_lt_Some).
    rewrite Hn. simpl. by rewrite decide_True.
  - rewrite list_lookup_insert_ne by done.
    destruct (l !! k) as [z|] eqn:Hk; [|done]. simpl.
    case_decide as Hz; [|done]. exfalso. apply Hne.
    eapply (NoDup_lookup _ _ _ _ Hnd); rewrite list_lookup_fmap.
    + by rewrite Hk.
    + rewrite Hn. simpl. by rewrite Hz.
Qed.
End Collections.

(** ** What each route does to the database *)

Lemma decision_of_cases status st :
  decision_of status = Some st →
  (status = "approved" ∧ st = approved) ∨ (status = "rejected" ∧ st = rejected).
Proof. unfold decision_of. repeat case_decide; naive_solver. Qed.

Lemma post_transactions_inv db i b u now db' r :
  post_transactions db i b u now = (db', r) →
  (db' = db ∧ isFailure r) ∨
  ∃ k it,
    Item.findOne (λ d, Item.id d = i) (items db) = Some (k, it) ∧
    Item.ownerId it ≠ b ∧
    Transaction.findOne (activeFor i) (transactions db) = None ∧
    Transaction.valid (borrow_request i b u now it) ∧
    (u ∉ Transaction.id <$> transactions db) ∧
    db' = with_transactions
            (transactions db ++ [borrow_request i b u now it]) db ∧
    r = Created (borrow_request i b u now it).
Proof.
  unfold post_transactions, Transaction.save.
  destruct (Item.findOne _ _) as [[k it]|] eqn:Hit; [|naive_solver].
  case_decide; [naive_solver|].
  destruct (Transaction.findOne _ _) eqn:Htx; [naive_solver|].
  repeat case_decide; naive_solver.
Qed.

Lemma put_transactions_id_inv db id uid status now db' r :
  put_transactions_id db id uid status now = (db', r) →
  (db' = db ∧ isFailure r ∧ r ≠ Internal) ∨
  ∃ n d st,
    Transaction.findOne (λ x, Transaction.id x = id) (transactions db)
      = Some (n, d) ∧
    Transaction.lenderId d = uid ∧
    decision_of status = Some st ∧
    ((Transaction.valid d ∧
      db' = mkDB (users db) (decided_items st d (items db))
                 (<[n := decided st now d]> (transactions db)) ∧
      r = Decided (decided st now d)) ∨
     (¬ Transaction.valid d ∧
      db' = with_items (decided_items st d (items db)) db ∧
      r = Internal)).
Proof.
  unfold put_transactions_id, Transaction.save, decided, decided_items.
  destruct (Transaction.findOne _ _) as [[n d]|] eqn:Htx; [|naive_solver].
  case_decide as Hl; [naive_solver|].
  destruct (decision_of status) as [st|] eqn:Hst; [|naive_solver].
  intros Hr. right. exists n, d, st. split_and!; [done..|].
  destruct (decide (st = approved)) as [->|Hne]; simpl in Hr;
    match type of Hr with
    | context [decide ?P] => destruct (decide P) as [Hv|Hv]
    end; simplify_eq; [left|right|left|right];
    (split; [exact Hv|split; [|reflexivity]]);
    first [reflexivity | by destruct db | by destruct db'].
Qed.

Lemma post_transactions_cancel_inv db i b db' r :
  post_transactions_cancel db i b = (db', r) →
  (db' = db ∧ r = NotFound the_active_transaction ∧
   Forall (λ d, ¬ (activeFor i d ∧ Transaction.borrowerId d = b))
          (transactions db)) ∨
  ∃ n d,
    transactions db !! n = Some d ∧ activeFor i d ∧
    Transaction.borrowerId d = b ∧
    ((¬ Transaction.valid d ∧ db' = db ∧ r = Internal) ∨
     (Transaction.valid d ∧
      let txs := <[n := Transaction.set_status cancelled d]>
                   (transactions db) in
      ((Item.findOne (λ x, Item.id x = i) (items db) = None ∧
        db' = with_transactions txs db ∧ r = NotFound the_item) ∨
       (∃ k it,
          Item.findOne (λ x, Item.id x = i) (items db) = Some (k, it) ∧
          db' = mkDB (users db)
                  (<[k := Item.set_status available it]> (items db))
                  (Transaction.updateMany (activeFor i)
                     (Transaction.set_status cancelled) txs) ∧
          r = Returned (Transaction.set_status cancelled d)
                (Item.set_status available it)
                (User.findOne (λ x, User.id x = b) (users db))
                (User.findOne
                   (λ x, User.id x = Transaction.lenderId d) (users db)))))).
Proof.
  unfold post_transactions_cancel, Transaction.save, Item.findOneAndUpdate,
    Item.findOne, Transaction.findOne.
  destruct (list_find _ (transactions db)) as [[n d]|] eqn:Htx.
  2:{ intros [= <- <-]. left. split_and!; [done..|].
      apply list_find_None in Htx. eapply Forall_impl; [done|].
      unfold activeFor. naive_solver. }
  apply find_lookup in Htx as (Hn & Hi & Hb & Hact).
  intros Hr. right. exists n, d. split_and!; [done..|].
  case_decide as Hv; [|left; by simplify_eq]. right. split; [done|]. simpl in *.
  destruct (list_find _ (items db)) as [[k it]|] eqn:Hit; simplify_eq/=;
    naive_solver.
Qed.

(** ** Preservation of the invariants by one operation *)

Lemma isActive_not_terminal st : isActive st ↔ ¬ isTerminal st.
Proof. unfold isActive, isTerminal. destruct st; naive_solver. Qed.

Lemma activeFor_set_cancelled i d :
  ¬ activeFor i (Transaction.set_status cancelled d).
Proof. unfold activeFor, isActive. simpl. naive_solver. Qed.

Lemma activeFor_decided i st now d :
  activeFor i (decided st now d) ↔ Transaction.itemId d = i ∧ isActive st.
Proof. unfold decided, activeFor. by case_decide. Qed.

Lemma approvedFor_decided i st now d :
  approvedFor i (decided st now d) ↔ Transaction.itemId d = i ∧ st = approved.
Proof. unfold decided, approvedFor. by case_decide. Qed.

(** The cascade of lines 538-549 leaves no active transaction for the
    item. *)
Lemma updateMany_cancelled i txs :
  Forall (λ d, ¬ activeFor i d)
    (Transaction.updateMany (activeFor i)
       (Transaction.set_status cancelled) txs).
Proof.
  unfold Transaction.updateMany. apply Forall_fmap. apply Forall_forall.
  intros d _. simpl. case_decide; [apply activeFor_set_cancelled|done].
Qed.

(** With the unique index on [id], [findOneAndUpdate] by id sets the
    status of every item of that id, and of no other. *)
Lemma findOneAndUpdate_by_id i st its :
  NoDup (Item.id <$> its) →
  (Item.findOneAndUpdate (λ x, Item.id x = i) (Item.set_status st) its).1
  = (λ x, if decide (Item.id x = i) then Item.set_status st x else x) <$> its.
Proof.
  intros Hnd. unfold Item.findOneAndUpdate.
  destruct (list_find _ its) as [[k it]|] eqn:Hk; simpl.
  - apply find_lookup in Hk as [Hk <-].
    rewrite (insert_by_key Item.id its k it _ Hnd Hk).
    apply list_fmap_ext. intros j x Hj. case_decide as Hx; [|done].
    assert (j = k) as ->; [|congruence].
    eapply (NoDup_lookup _ _ _ _ Hnd); rewrite list_lookup_fmap.
    + by rewrite Hj.
    + rewrite Hk. simpl. by rewrite Hx.
  - apply list_find_None in Hk. symmetry.
    rewrite <- (list_fmap_id its) at 2. apply Forall_fmap_ext.
    eapply Forall_impl; [done|]. intros x Hx. simpl in *. by case_decide.
Qed.

Lemma findOneAndUpdate_ids (P : Item.t → Prop) `{∀ x, Decision (P x)}
    st its :
  Item.id <$> (Item.findOneAndUpdate P (Item.set_status st) its).1
  = Item.id <$> its.
Proof.
  unfold Item.findOneAndUpdate.
  destruct (list_find P its) as [[k it]|] eqn:Hk; [|done]. simpl.
  apply find_lookup in Hk as [Hk _].
  rewrite list_fmap_insert. simpl. apply list_insert_id.
  by rewrite list_lookup_fmap, Hk.
Qed.

Lemma decided_items_ids st d its :
  Item.id <$> decided_items st d its = Item.id <$> its.
Proof.
  unfold decided_items. case_decide; [apply findOneAndUpdate_ids|done].
Qed.

Lemma valid_decided st now d :
  Transaction.valid (decided st now d) ↔ Transaction.valid d.
Proof. unfold decided. by case_decide. Qed.

(** Schema conformance is kept by every operation. *)
Lemma step_conforms db op : conforms db → conforms (step db op).1.
Proof.
  intros [Hnd Hv]. destruct (step db op) as [db' r] eqn:Hstep.
  destruct op as [i b u now|tid uid stt now|i b]; simpl in *.
  - apply post_transactions_inv in Hstep
      as [[-> _]|(k & it & _ & _ & _ & Hv' & _ & -> & _)]; [done|].
    split; [done|]. simpl. apply Forall_app. split; [done|].
    by apply Forall_singleton.
  - apply put_transactions_id_inv in Hstep
      as [[-> _]|(n & d & st & _ & _ & _ & [(Hd & -> & _)|(_ & -> & _)])];
      [done| |]; (split; simpl; [by rewrite decided_items_ids|]); [|done].
    apply Forall_insert; [done|]. by apply valid_decided.
  - apply post_transactions_cancel_inv in Hstep
      as [(-> & _)|(n & d & _ & _ & _ & [(_ & -> & _)|[Hd Hstep]])];
      [done..|]. simpl in Hstep.
    destruct Hstep as [(_ & -> & _)|(k & it & Hk & -> & _)]; simpl.
    + split; [done|]. simpl. by apply Forall_insert.
    + split.
      * pose proof (findOneAndUpdate_ids (λ x, Item.id x = i) available
          (items db)) as Hids.
        unfold Item.findOneAndUpdate, Item.findOne in *.
        rewrite Hk in Hids. simpl in *. by rewrite Hids.
      * unfold Transaction.updateMany. apply Forall_fmap.
        eapply Forall_impl; [by apply Forall_insert|].
        intros x Hx. simpl. by case_decide.
Qed.

(** I1 is kept by every operation that does not approve a rejected or
    cancelled transaction. *)
Lemma step_single_claim db op :
  single_claim db → decides_only no_revival db op →
  single_claim (step db op).1.
Proof.
  intros HI Hok j. specialize (HI j). unfold activeCount in *.
  destruct (step db op) as [db' r] eqn:Hstep.
  destruct op as [i b u now|tid uid stt now|i b]; simpl in *.
  - apply post_transactions_inv in Hstep
      as [[-> _]|(k & it & _ & _ & Hnone & _ & _ & -> & _)]; [done|].
    simpl. rewrite filter_app, length_app, filter_cons, filter_nil.
    destruct (decide (j = i)) as [->|Hne].
    + rewrite (count_none _ _ Hnone). case_decide; simpl; lia.
    + rewrite decide_False; [simpl; lia|].
      intros [Hi _]. simpl in Hi. congruence.
  - apply put_transactions_id_inv in Hstep
      as [[-> _]|(n & d & st & Htx & Hl & Hst & [(_ & -> & _)|(_ & -> & _)])];
      [done| |done].
    simpl. etrans; [|exact HI]. rewrite Htx, Hst in Hok.
    apply find_lookup in Htx as [Hn _].
    apply (count_insert_le _ _ _ d); [done|].
    rewrite activeFor_decided. intros [Hi Hact]. split; [done|].
    apply isActive_not_terminal. intros Hterm. apply (Hok Hl).
    split; [done|].
    apply decision_of_cases in Hst as [[_ ->]|[_ ->]]; [done|].
    unfold isActive in Hact. naive_solver.
  - apply post_transactions_cancel_inv in Hstep
      as [(-> & _)|(n & d & Hn & _ & _ & [(_ & -> & _)|[Hd Hstep]])];
      [done..|]. simpl in Hstep.
    assert (length (filter (activeFor j)
              (<[n := Transaction.set_status cancelled d]> (transactions db)))
            ≤ 1)%nat as Hsaved.
    { etrans; [|exact HI]. apply (count_insert_le _ _ _ d); [done|].
      intros []%activeFor_set_cancelled. }
    destruct Hstep as [(_ & -> & _)|(k & it & _ & -> & _)]; simpl; [done|].
    etrans; [|exact Hsaved]. apply count_fmap_le.
    intros x. case_decide; [|done]. intros []%activeFor_set_cancelled.
Qed.

Lemma approved_is_active i d : approvedFor i d → activeFor i d.
Proof. unfold approvedFor, activeFor, isActive. naive_solver. Qed.

(** I2 is kept by every operation that does not reject an approved
    transaction, on a database that conforms to the schemas. *)
Lemma step_coupled db op :
  conforms db → coupled db → decides_only no_unapproval db op →
  coupled (step db op).1.
Proof.
  intros [Hnd Hv] HI Hok.
  destruct (step db op) as [db' r] eqn:Hstep.
  destruct op as [i b u now|tid uid stt now|i b]; simpl in *.
  - apply post_transactions_inv in Hstep
      as [[-> _]|(k & it & _ & _ & _ & _ & _ & -> & _)]; [done|].
    intros x Hx. rewrite (HI x Hx). unfold hasApproved. simpl. split.
    + intros (d & Hd & Ha). exists d. split; [|done].
      apply elem_of_app. by left.
    + intros (d & [Hd|Hd%list_elem_of_singleton]%elem_of_app & Ha).
      * by exists d.
      * subst d. by destruct Ha as [_ [=]].
  - apply put_transactions_id_inv in Hstep
      as [[-> _]|(n & d & st & Htx & Hl & Hst & Hcase)]; [done|].
    rewrite Htx, Hst in Hok. specialize (Hok Hl).
    apply find_lookup in Htx as [Hn _].
    destruct Hcase as [(_ & -> & _)|(Hbad & _)].
    2:{ destruct Hbad. eapply Forall_lookup_1; eauto. }
    intros x Hx. unfold hasApproved. simpl in *.
    unfold decided_items in Hx.
    apply decision_of_cases in Hst as [[_ ->]|[_ ->]].
    + rewrite decide_True in Hx by done.
      rewrite findOneAndUpdate_by_id in Hx by done.
      apply list_elem_of_fmap in Hx as (y & -> & Hy).
      case_decide as Hid; simpl.
      * split; [|done]. intros _. exists (decided approved now d).
        split; [|by apply approvedFor_decided].
        eapply list_elem_of_lookup_2, list_lookup_insert_eq.
        by eapply lookup_lt_Some.
      * rewrite (HI y Hy). symmetry. apply exists_insert with d; [done|].
        rewrite approvedFor_decided. unfold approvedFor. naive_solver.
    + rewrite decide_False in Hx by done.
      rewrite (HI x Hx). symmetry. apply exists_insert with d; [done|].
      rewrite approvedFor_decided. unfold approvedFor, no_unapproval in *.
      naive_solver.
  - apply post_transactions_cancel_inv in Hstep
      as [(-> & _)|(n & d & Hn & [Hi _] & _ & [(_ & -> & _)|[Hd Hstep]])];
      [done..|]. simpl in Hstep.
    destruct Hstep as [(Hnone & -> & _)|(k & it & Hk & -> & _)].
    + intros x Hx. simpl in Hx. rewrite (HI x Hx). symmetry.
      apply exists_insert with d; [done|].
      apply list_find_None in Hnone.
      pose proof (proj1 (Forall_forall _ _) Hnone x Hx) as Hxi. simpl in Hxi.
      unfold approvedFor. simpl. naive_solver.
    + apply find_lookup in Hk as [Hk Hiti].
      intros x Hx. unfold hasApproved. simpl in *.
      rewrite (insert_by_key Item.id _ _ _ _ Hnd Hk) in Hx.
      apply list_elem_of_fmap in Hx as (y & -> & Hy).
      case_decide as Hid; simpl.
      * split; [done|]. intros (z & Hz & Ha%approved_is_active).
        rewrite Hiti in Ha.
        pose proof (updateMany_cancelled i
          (<[n := Transaction.set_status cancelled d]> (transactions db)))
          as Hnone.
        exfalso. by apply (proj1 (Forall_forall _ _) Hnone z Hz).
      * rewrite (HI y Hy). symmetry. unfold Transaction.updateMany.
        etrans; [apply exists_fmap|apply exists_insert with d; [done|]].
        -- intros z. case_decide as Hz; [|done].
           destruct Hz as [Hz _]. unfold approvedFor. simpl.
           split; intros [? _]; congruence.
        -- unfold approvedFor. simpl. split; intros [? _]; congruence.
Qed.

(** ** The scenarios of the lifecycle, run on the model *)

(** A first request is created with [201]; a second one for the same
    item meets the active request. *)
Example scenario_request_twice :
  (step fresh (RequestBorrow "I1" "U2" "T1" 10)).2
    = Created (borrow_request "I1" "U2" "T1" 10 drill) ∧
  statusCode (step fresh (RequestBorrow "I1" "U2" "T1" 10)).2 = 201 ∧
  (step (step fresh (RequestBorrow "I1" "U2" "T1" 10)).1
        (RequestBorrow "I1" "U2" "T2" 11)).2
    = Conflict active_claim_exists.
Proof. by vm_compute. Qed.

(** Only the lender decides; the approval lends the item. *)
Example scenario_decide :
  (step (step fresh (RequestBorrow "I1" "U2" "T1" 10)).1
        (DecideRequest "T1" "U2" "approved" 20)).2 = Forbidden ∧
  (step (step fresh (RequestBorrow "I1" "U2" "T1" 10)).1
        (DecideRequest "T1" "U1" "maybe" 20)).2 = InvalidArgument ∧
  (step fresh (DecideRequest "T1" "U1" "approved" 20)).2
    = NotFound the_transaction ∧
  transactions lent = [loan] ∧
  items lent = [Item.set_status borrowed drill].
Proof. by vm_compute. Qed.

(** The return cancels the loan and frees the item. *)
Example scenario_return :
  step lent (CancelOrReturn "I1" "U2")
    = ({| users := [ann; bob; cid]; items := [drill];
          transactions := [Transaction.set_status cancelled loan] |},
       Returned (Transaction.set_status cancelled loan) drill
         (Some bob) (Some ann)).
Proof. by vm_compute. Qed.

(** The owner cannot borrow the own item. *)
Example scenario_self_borrow :
  step fresh (RequestBorrow "I1" "U1" "T1" 10)
    = (fresh, Conflict self_borrow).
Proof. by vm_compute. Qed.

(** ** I1 and I2 along sequences of operations *)

(** Decisions taken only on pending transactions (§4.2, precondition 2)
    neither revive a closed transaction nor take an approval back. *)
Lemma decides_only_impl (P Q : TxStatus → TxStatus → Prop) db ops :
  (∀ from to, P from to → Q from to) →
  along (decides_only P) db ops → along (decides_only Q) db ops.
Proof.
  intros HPQ. revert db.
  induction ops as [|op ops IH]; intros db; [done|].
  intros [Hop Hops]. split; [|by apply IH].
  destruct op as [| tid uid decision now |]; try done. simpl in *.
  destruct (Transaction.findOne _ _) as [[n d]|]; [|done].
  destruct (decision_of decision); [|done]. auto.
Qed.

Lemma from_pending_suffices db ops :
  along (decides_only from_pending) db ops →
  along (decides_only no_revival) db ops ∧
  along (decides_only no_unapproval) db ops.
Proof.
  intros H. split; (eapply decides_only_impl; [|exact H]);
    unfold from_pending, no_revival, no_unapproval, isTerminal;
    intros from to ->; naive_solver.
Qed.

(** C1, as stated, fails: the owner may approve the cancelled request
    [T1] after a second borrower has filed [T2], which leaves two active
    transactions for item [I1]. *)
Lemma C1_counterexample :
  single_claim fresh ∧
  activeCount (run fresh revival) "I1" = 2%nat ∧
  ¬ single_claim (run fresh revival).
Proof.
  split_and!.
  - intros i. vm_compute. lia.
  - vm_compute. reflexivity.
  - intros H. specialize (H "I1"). vm_compute in H. lia.
Qed.

(** C1, amended: for every item, after any sequence of Coordinator
    operations in which no [DecideRequest] approves a transaction that is
    rejected or cancelled, at most one transaction of the item is pending
    or approved (given that this held before the sequence). *)
Theorem C1_single_claim db ops :
  single_claim db → along (decides_only no_revival) db ops →
  single_claim (run db ops).
Proof.
  revert db. induction ops as [|op ops IH]; intros db HI Hok; [done|].
  destruct Hok as [Hop Hops]. simpl. apply IH; [|done].
  by apply step_single_claim.
Qed.

Lemma C1_single_claim_witness : single_claim (run fresh lifecycle).
Proof.
  apply (C1_single_claim fresh lifecycle).
  - intros i. vm_compute. lia.
  - vm_compute. intuition congruence.
Defined.

(** C2, as stated, fails: the owner may reject the request [T1] that was
    approved before; the item stays [borrowed] and no transaction of it
    is approved. *)
Lemma C2_counterexample :
  conforms fresh ∧ coupled fresh ∧ ¬ coupled (run fresh unapproval).
Proof.
  split_and!.
  - split; simpl.
    + apply NoDup_singleton.
    + constructor.
  - intros it ->%list_elem_of_singleton. simpl. split; [done|].
    by intros (d & Hd%elem_of_nil & _).
  - intros H.
    destruct (H (Item.set_status borrowed drill)) as [Hex _].
    { vm_compute. apply list_elem_of_here. }
    destruct (Hex eq_refl) as (d & Hd & _ & Hst).
    vm_compute in Hd. apply list_elem_of_singleton in Hd. by subst d.
Qed.

(** C2, amended: on a database that conforms to the schemas, after every
    operation of a sequence of Coordinator operations in which no
    [DecideRequest] rejects an approved transaction, an item is
    [borrowed] if and only if one of its transactions is [approved]
    (given that this held before the sequence). *)
Theorem C2_coupled db ops :
  conforms db → coupled db → along (decides_only no_unapproval) db ops →
  conforms (run db ops) ∧ coupled (run db ops).
Proof.
  revert db. induction ops as [|op ops IH]; intros db Hc HI Hok; [done|].
  destruct Hok as [Hop Hops]. simpl. apply IH; [| |done].
  - by apply step_conforms.
  - by apply step_coupled.
Qed.

Lemma C2_coupled_witness :
  conforms (run fresh lifecycle) ∧ coupled (run fresh lifecycle).
Proof.
  apply (C2_coupled fresh lifecycle).
  - split; simpl; [apply NoDup_singleton|constructor].
  - intros it ->%list_elem_of_singleton. simpl. split; [done|].
    by intros (d & Hd%elem_of_nil & _).
  - vm_compute. intuition congruence.
Defined.

(** ** Decisions and the current status *)

Lemma status_decided st now d : Transaction.status (decided st now d) = st.
Proof. unfold decided. by case_decide. Qed.

(** C3, as stated, fails: a decision on an approved transaction is
    carried out, and so is one on a cancelled transaction. *)
Lemma C3_counterexample :
  (∃ n d d' db',
     Transaction.findOne (λ x, Transaction.id x = "T1") (transactions lent)
       = Some (n, d) ∧
     Transaction.status d = approved ∧
     put_transactions_id lent "T1" "U1" "rejected" 30 = (db', Decided d') ∧
     transactions db' !! n = Some d' ∧
     Transaction.status d' = rejected ∧ db' ≠ lent) ∧
  (∃ n d d' db',
     Transaction.findOne (λ x, Transaction.id x = "T1")
       (transactions withdrawn) = Some (n, d) ∧
     Transaction.status d = cancelled ∧
     put_transactions_id withdrawn "T1" "U1" "approved" 30
       = (db', Decided d') ∧
     transactions db' !! n = Some d' ∧
     Transaction.status d' = approved).
Proof.
  split.
  - eexists _, _, _, _. split_and!; [by vm_compute..|].
    vm_compute. discriminate.
  - eexists _, _, _, _. split_and!; by vm_compute.
Qed.

(** C3, amended: [DecideRequest] does not look at the current status of
    the transaction.  Whenever the transaction exists and is valid,
    [deciderId] is its lender and the decision is approved or rejected,
    the call succeeds and sets the status to the decision, whatever the
    status was.  [RequestBorrow] and [CancelOrReturn] never change a
    transaction that is rejected or cancelled. *)
Theorem C3_decision_ignores_status db :
  (∀ id uid decision now n d st,
     Transaction.findOne (λ x, Transaction.id x = id) (transactions db)
       = Some (n, d) →
     Transaction.valid d → Transaction.lenderId d = uid →
     decision_of decision = Some st →
     put_transactions_id db id uid decision now
       = (mkDB (users db) (decided_items st d (items db))
               (<[n := decided st now d]> (transactions db)),
          Decided (decided st now d)) ∧
     Transaction.status (decided st now d) = st) ∧
  (∀ op k x,
     (∀ t u s w, op ≠ DecideRequest t u s w) →
     transactions db !! k = Some x → isTerminal (Transaction.status x) →
     transactions (step db op).1 !! k = Some x).
Proof.
  split.
  - intros id uid decision now n d st Htx Hv Hl Hst.
    split; [|apply status_decided].
    unfold put_transactions_id. rewrite Htx.
    rewrite decide_False by (intros Hne; by apply Hne). rewrite Hst.
    unfold decided, decided_items, Transaction.save.
    destruct (decide (st = approved)) as [->|Hne]; simpl;
      by rewrite decide_True.
  - intros op k x Hop Hk Hterm.
    destruct (step db op) as [db' r] eqn:Hstep.
    destruct op as [i b u now|tid uid stt now|i b]; simpl in *.
    + apply post_transactions_inv in Hstep
        as [[-> _]|(? & ? & _ & _ & _ & _ & _ & -> & _)]; [done|].
      simpl. by apply lookup_app_l_Some.
    + by destruct (Hop tid uid stt now).
    + apply post_transactions_cancel_inv in Hstep
        as [(-> & _)|(n & d & Hn & [_ Hact] & _ & [(_ & -> & _)|[Hd Hstep]])];
        [done..|]. simpl in Hstep.
      assert (k ≠ n) as Hkn.
      { intros ->. simplify_eq. by apply isActive_not_terminal in Hact. }
      destruct Hstep as [(_ & -> & _)|(? & ? & _ & -> & _)]; simpl.
      * by rewrite list_lookup_insert_ne.
      * unfold Transaction.updateMany.
        rewrite list_lookup_fmap, list_lookup_insert_ne, Hk by done. simpl.
        rewrite decide_False; [done|].
        intros [_ Hx]. by apply isActive_not_terminal in Hx.
Qed.

Lemma C3_decision_ignores_status_witness :
  (put_transactions_id lent "T1" "U1" "rejected" 30).2
    = Decided (decided rejected 30 loan) ∧
  transactions (step withdrawn (CancelOrReturn "I1" "U3")).1 !! 0%nat
    = Some (Transaction.set_status cancelled
              (borrow_request "I1" "U2" "T1" 10 drill)).
Proof.
  pose proof (C3_decision_ignores_status lent) as [Hdecide _].
  pose proof (C3_decision_ignores_status withdrawn) as [_ Hframe].
  split.
  - destruct (Hdecide "T1" "U1" "rejected" 30 0%nat loan rejected) as [-> _];
      [by vm_compute| |done..].
    vm_compute. intuition congruence.
  - apply Hframe; [done|by vm_compute|]. vm_compute. tauto.
Defined.

(** ** Failures and writes *)

(** On a database seeded with a transaction whose item is not stored,
    the cancel route saves the cancelled transaction (line 517) before
    it learns that the item is missing (line 532): it answers
    [NotFound the_item] with the transaction written.  No sequence of
    calls makes such a database of the empty one. *)
Lemma orphaned_cancel_writes :
  ∃ db',
    post_transactions_cancel orphaned "I1" "U2" = (db', NotFound the_item) ∧
    isFailure (NotFound the_item) ∧
    transactions orphaned = [loan] ∧
    transactions db' = [Transaction.set_status cancelled loan] ∧
    db' ≠ orphaned.
Proof.
  eexists. split_and!; [by vm_compute..|]. vm_compute. discriminate.
Qed.

(** Every other failure leaves the database as it was: the checks of
    [RequestBorrow] and [DecideRequest], and the first check of
    [CancelOrReturn], come before any write. *)
Lemma failure_without_write db op :
  isFailure (step db op).2 → (step db op).2 ≠ Internal →
  (∀ i b, op = CancelOrReturn i b → (step db op).2 ≠ NotFound the_item) →
  (step db op).1 = db.
Proof.
  intros Hfail Hint Hcancel.
  destruct (step db op) as [db' r] eqn:Hstep.
  destruct op as [i b u now|tid uid stt now|i b]; simpl in *.
  - apply post_transactions_inv in Hstep
      as [[-> _]|(? & ? & _ & _ & _ & _ & _ & _ & ->)]; done.
  - apply put_transactions_id_inv in Hstep
      as [[-> _]|(? & ? & ? & _ & _ & _ & [(_ & _ & ->)|(_ & _ & ->)])];
      done.
  - apply post_transactions_cancel_inv in Hstep
      as [(-> & _)|(n & d & _ & _ & _ & [(_ & -> & _)|[Hd Hstep]])];
      [done..|]. simpl in Hstep.
    destruct Hstep as [(_ & _ & ->)|(? & ? & _ & _ & ->)]; [|done].
    by destruct (Hcancel i b).
Qed.

(** ** RequestBorrow *)

(** C5: [RequestBorrow] checks in order, and the first failure wins: no
    item of that id gives [NotFound the_item]; otherwise, with the item
    the route loads, a borrower who is its owner gives
    [Conflict self_borrow]; otherwise an active transaction of the item
    gives [Conflict active_claim_exists].  Nothing is written. *)
Theorem C5_request_precondition_order db itemId borrowerId uuid now :
  ((∀ it, it ∈ items db → Item.id it ≠ itemId) →
   post_transactions db itemId borrowerId uuid now
     = (db, NotFound the_item)) ∧
  ((∃ it, it ∈ items db ∧ Item.id it = itemId) →
   ∃ k item,
     Item.findOne (λ d, Item.id d = itemId) (items db) = Some (k, item) ∧
     item ∈ items db ∧ Item.id item = itemId ∧
     (Item.ownerId item = borrowerId →
      post_transactions db itemId borrowerId uuid now
        = (db, Conflict self_borrow)) ∧
     (Item.ownerId item ≠ borrowerId →
      (∃ d, d ∈ transactions db ∧ Transaction.itemId d = itemId ∧
            isActive (Transaction.status d)) →
      post_transactions db itemId borrowerId uuid now
        = (db, Conflict active_claim_exists))).
Proof.
  unfold post_transactions, Item.findOne, Transaction.findOne. split.
  - intros Hnone.
    assert (list_find (λ d, Item.id d = itemId) (items db) = None) as ->;
      [|done].
    apply list_find_None, Forall_forall. exact Hnone.
  - intros (it & Hit & Hid).
    destruct (list_find_elem_of (λ d, Item.id d = itemId) _ _ Hit Hid)
      as [[k item] Hk].
    exists k, item. rewrite Hk.
    destruct (find_lookup _ _ _ _ Hk) as [Hlk Hitem].
    split_and!; [done|by eapply list_elem_of_lookup_2|done|..].
    + intros Hown. by rewrite decide_True.
    + intros Hown (d & Hd & Hdi & Hact). rewrite decide_False by done.
      destruct (list_find_elem_of (activeFor itemId) _ d Hd) as [[n x] ->];
        done.
Qed.

Lemma C5_request_precondition_order_witness :
  post_transactions fresh "I9" "U2" "T1" 10 = (fresh, NotFound the_item) ∧
  post_transactions fresh "I1" "U1" "T1" 10 = (fresh, Conflict self_borrow) ∧
  post_transactions lent "I1" "U3" "T2" 30
    = (lent, Conflict active_claim_exists).
Proof.
  split_and!.
  - apply (C5_request_precondition_order fresh "I9" "U2" "T1" 10).
    intros it ->%list_elem_of_singleton. by vm_compute.
  - destruct (C5_request_precondition_order fresh "I1" "U1" "T1" 10)
      as [_ Hfound].
    destruct Hfound as (k & item & Hk & _ & _ & Hself & _).
    { exists drill. split; [apply list_elem_of_here|done]. }
    apply Hself. vm_compute in Hk. by simplify_eq.
  - destruct (C5_request_precondition_order lent "I1" "U3" "T2" 30)
      as [_ Hfound].
    destruct Hfound as (k & item & Hk & _ & _ & _ & Hactive).
    { exists (Item.set_status borrowed drill).
      split; [apply list_elem_of_here|done]. }
    apply Hactive.
    + vm_compute in Hk. by simplify_eq.
    + exists loan. split_and!; [apply list_elem_of_here|done|by right].
Defined.

Lemma not_active_not_approved db i :
  Transaction.findOne (activeFor i) (transactions db) = None →
  ¬ hasApproved db i.
Proof.
  intros Hnone%list_find_None (d & Hd & Ha%approved_is_active).
  by apply (proj1 (Forall_forall _ _) Hnone d Hd).
Qed.

(** C8, as stated, fails in its parenthesis: once Ann has approved and
    then rejected Bob's request, the drill is [borrowed] with no active
    transaction; Cid's request is then created, and the drill is
    [borrowed] before and after it, not available. *)
Lemma C8_counterexample :
  ∃ db' transaction,
    post_transactions (run fresh unapproval) "I1" "U3" "T2" 40
      = (db', Created transaction) ∧
    Item.findOne (λ d, Item.id d = "I1") (items (run fresh unapproval))
      = Some (0%nat, Item.set_status borrowed drill) ∧
    Item.findOne (λ d, Item.id d = "I1") (items db')
      = Some (0%nat, Item.set_status borrowed drill) ∧
    Item.status (Item.set_status borrowed drill) ≠ available.
Proof. eexists _, _. split_and!; by vm_compute. Qed.

(** C8, amended: a successful [RequestBorrow] appends exactly one
    transaction, with [status = pending], [lenderId = item.ownerId] and
    [startDate = now], and writes nothing else: items and users are as
    before, so the status of the item is not modified, whatever it was.
    It is [available] where the item status was coupled to the
    transactions (I2) before the call. *)
Theorem C8_request_creates_one_pending
    db itemId borrowerId uuid now db' transaction :
  post_transactions db itemId borrowerId uuid now
    = (db', Created transaction) →
  ∃ k item,
    Item.findOne (λ d, Item.id d = itemId) (items db) = Some (k, item) ∧
    transaction = borrow_request itemId borrowerId uuid now item ∧
    Transaction.status transaction = pending ∧
    Transaction.lenderId transaction = Item.ownerId item ∧
    Transaction.startDate transaction = now ∧
    transactions db' = transactions db ++ [transaction] ∧
    items db' = items db ∧
    users db' = users db ∧
    (coupled db → Item.status item = available).
Proof.
  intros [[_ []]|(k & item & Hk & _ & Hnone & _ & _ & -> & [= ->])]
    %post_transactions_inv.
  exists k, item. split_and!; try done.
  intros HI. apply find_lookup in Hk as [Hk Hid].
  destruct (Item.status item) eqn:Hst; [done|]. exfalso.
  apply (not_active_not_approved _ _ Hnone). rewrite <- Hid.
  apply HI; [by eapply list_elem_of_lookup_2|done].
Qed.

Lemma C8_request_creates_one_pending_witness :
  ∃ k item,
    Item.findOne (λ d, Item.id d = "I1") (items fresh) = Some (k, item) ∧
    borrow_request "I1" "U2" "T1" 10 drill
      = borrow_request "I1" "U2" "T1" 10 item ∧
    Transaction.status (borrow_request "I1" "U2" "T1" 10 drill) = pending ∧
    Transaction.lenderId (borrow_request "I1" "U2" "T1" 10 drill)
      = Item.ownerId item ∧
    Transaction.startDate (borrow_request "I1" "U2" "T1" 10 drill) = 10 ∧
    transactions (step fresh (RequestBorrow "I1" "U2" "T1" 10)).1
      = transactions fresh ++ [borrow_request "I1" "U2" "T1" 10 drill] ∧
    items (step fresh (RequestBorrow "I1" "U2" "T1" 10)).1 = items fresh ∧
    users (step fresh (RequestBorrow "I1" "U2" "T1" 10)).1 = users fresh ∧
    (coupled fresh → Item.status item = available).
Proof.
  apply (C8_request_creates_one_pending fresh "I1" "U2" "T1" 10).
  by vm_compute.
Defined.




(** ** DecideRequest and the item status *)

(** No operation adds, removes or renames an item. *)
Lemma step_item_ids db op :
  Item.id <$> items (step db op).1 = Item.id <$> items db.
Proof.
  destruct (step db op) as [db' r] eqn:Hstep.
  destruct op as [i b u now|tid uid stt now|i b]; simpl in *.
  - apply post_transactions_inv in Hstep
      as [[-> _]|(? & ? & _ & _ & _ & _ & _ & -> & _)]; done.
  - apply put_transactions_id_inv in Hstep
      as [[-> _]|(? & ? & ? & _ & _ & _ & [(_ & -> & _)|(_ & -> & _)])];
      [done|..]; apply decided_items_ids.
  - apply post_transactions_cancel_inv in Hstep
      as [(-> & _)|(n & d & _ & _ & _ & [(_ & -> & _)|[Hd Hstep]])];
      [done..|]. simpl in Hstep.
    destruct Hstep as [(_ & -> & _)|(k & it & Hk & -> & _)]; [done|].
    apply find_lookup in Hk as [Hk _]. simpl.
    rewrite list_fmap_insert. apply list_insert_id.
    by rewrite list_lookup_fmap, Hk.
Qed.

(** C6: a [DecideRequest] with decision rejected leaves every item as it
    was; every operation keeps the items in place; and an item that was
    not [borrowed] before an operation and is [borrowed] after it was
    the item of a transaction on which the lender's [DecideRequest] with
    decision approved was that operation. *)
Theorem C6_only_approval_lends db :
  (∀ id uid now,
     items (put_transactions_id db id uid "rejected" now).1 = items db) ∧
  (∀ op, Item.id <$> items (step db op).1 = Item.id <$> items db) ∧
  (∀ op k it it',
     items db !! k = Some it → items (step db op).1 !! k = Some it' →
     Item.status it ≠ borrowed → Item.status it' = borrowed →
     ∃ tid uid now n d,
       op = DecideRequest tid uid "approved" now ∧
       Transaction.findOne (λ x, Transaction.id x = tid) (transactions db)
         = Some (n, d) ∧
       Transaction.lenderId d = uid ∧
       Transaction.itemId d = Item.id it).
Proof.
  split_and!.
  - intros id uid now.
    destruct (put_transactions_id db id uid "rejected" now) as [db' r]
      eqn:Hput.
    apply put_transactions_id_inv in Hput
      as [[-> _]|(? & ? & st & _ & _ & [= <-] &
                  [(_ & -> & _)|(_ & -> & _)])]; done.
  - apply step_item_ids.
  - intros op k it it' Hk Hk' Hwas His.
    destruct (step db op) as [db' r] eqn:Hstep.
    destruct op as [i b u now|tid uid stt now|i b]; simpl in *.
    + apply post_transactions_inv in Hstep
        as [[-> _]|(? & ? & _ & _ & _ & _ & _ & -> & _)];
        simpl in *; congruence.
    + apply put_transactions_id_inv in Hstep
        as [[-> _]|(n & d & st & Htx & Hl & Hst & Hcase)]; [congruence|].
      assert (items db' = decided_items st d (items db)) as Hits
        by (by destruct Hcase as [(_ & -> & _)|(_ & -> & _)]).
      rewrite Hits in Hk'. unfold decided_items in Hk'.
      apply decision_of_cases in Hst as [[-> ->]|[_ ->]];
        [|by simplify_eq/=].
      rewrite decide_True in Hk' by done.
      unfold Item.findOneAndUpdate in Hk'.
      destruct (list_find _ (items db)) as [[k0 x]|] eqn:Hfind;
        simpl in Hk'; [|congruence].
      apply find_lookup in Hfind as [Hx Hid].
      destruct (decide (k = k0)) as [->|Hne].
      * exists tid, uid, now, n, d. split_and!; [done..|]. congruence.
      * rewrite list_lookup_insert_ne in Hk' by done. congruence.
    + apply post_transactions_cancel_inv in Hstep
        as [(-> & _)|(n & d & _ & _ & _ & [(_ & -> & _)|[Hd Hstep]])];
        [congruence..|]. simpl in Hstep.
      destruct Hstep as [(_ & -> & _)|(k0 & x & Hx & -> & _)];
        simpl in *; [congruence|].
      apply list_lookup_insert_Some in Hk' as [(_ & <- & _)|[_ Hk']];
        [done|congruence].
Qed.

Lemma C6_only_approval_lends_witness :
  ∃ tid uid now n d,
    DecideRequest "T1" "U1" "approved" 20
      = DecideRequest tid uid "approved" now ∧
    Transaction.findOne (λ x, Transaction.id x = tid)
      (transactions (run fresh [RequestBorrow "I1" "U2" "T1" 10]))
      = Some (n, d) ∧
    Transaction.lenderId d = uid ∧
    Transaction.itemId d = Item.id drill.
Proof.
  pose proof (C6_only_approval_lends
                (run fresh [RequestBorrow "I1" "U2" "T1" 10]))
    as (_ & _ & Honly).
  apply (Honly (DecideRequest "T1" "U1" "approved" 20) 0%nat drill
           (Item.set_status borrowed drill)); by vm_compute.
Defined.

(** ** CancelOrReturn *)



(** C9: after a successful [CancelOrReturn], the same call again fails
    with [NotFound the_active_transaction] and writes nothing; the item
    is the one the first call returned, and it is [available]. *)
Theorem C9_second_cancel_not_found
    db itemId borrowerId db' transaction item borrower lender :
  post_transactions_cancel db itemId borrowerId
    = (db', Returned transaction item borrower lender) →
  post_transactions_cancel db' itemId borrowerId
    = (db', NotFound the_active_transaction) ∧
  ∃ k,
    Item.findOne (λ x, Item.id x = itemId) (items db') = Some (k, item) ∧
    Item.status item = available.
Proof.
  intros [(_ & [=] & _)
         |(n & d & Hn & Hact & Hb & [(_ & _ & [=])|[Hd Hstep]])]
    %post_transactions_cancel_inv.
  simpl in Hstep.
  destruct Hstep as [(_ & _ & [=])|(k & it & Hk & -> & [= -> -> _ _])].
  split.
  - unfold post_transactions_cancel, Transaction.findOne. simpl.
    match goal with
    | |- context [list_find ?P ?l] =>
        assert (list_find P l = None) as ->; [|done]
    end.
    apply list_find_None.
    eapply Forall_impl; [apply (updateMany_cancelled itemId)|].
    unfold activeFor. simpl. tauto.
  - exists k. split; [|done]. simpl. unfold Item.findOne in *.
    apply (find_insert _ _ _ it); [done|].
    by apply find_lookup in Hk as [_ Hid].
Qed.

Lemma C9_second_cancel_not_found_witness :
  post_transactions_cancel (run fresh lifecycle) "I1" "U2"
    = (run fresh lifecycle, NotFound the_active_transaction) ∧
  ∃ k,
    Item.findOne (λ x, Item.id x = "I1") (items (run fresh lifecycle))
      = Some (k, drill) ∧
    Item.status drill = available.
Proof.
  eapply (C9_second_cancel_not_found lent "I1" "U2"). by vm_compute.
Defined.

(** * The rest of the API *)

(** ** JavaScript objects used as maps *)

Section JsObjects.
Context {V : Type}.
Implicit Types (o : JsObject V) (k : string) (v : V).



End JsObjects.

Section Reduce.
Context {A V : Type} (key : A → string) (value : A → V).
Implicit Types (docs : list A) (d : A).

Lemma reduce_to_map_snoc docs d :
  reduce_to_map key value (docs ++ [d])
  = js_set (key d) (value d) (reduce_to_map key value docs).
Proof. unfold reduce_to_map. by rewrite foldl_snoc. Qed.


(** No prototype is installed unless a document is keyed
    ["__proto__"]. *)
Lemma reduce_to_map_proto docs :
  (∀ d, d ∈ docs → key d ≠ "__proto__") →
  proto (reduce_to_map key value docs) = None.
Proof.
  intros Hdocs. induction docs as [|x docs IH] using rev_ind; [done|].
  rewrite reduce_to_map_snoc. unfold js_set.
  rewrite decide_False; [simpl; apply IH|].
  - intros d Hd. apply Hdocs, elem_of_app. by left.
  - apply Hdocs, elem_of_app. right. apply list_elem_of_here.
Qed.
End Reduce.


(** ** What the other routes do to the database *)

Lemma elem_of_insert_inv {A} (l : list A) n x y :
  y ∈ <[n := x]> l → y = x ∨ y ∈ l.
Proof.
  intros [k Hk]%list_elem_of_lookup.
  apply list_lookup_insert_Some in Hk as [(_ & Hxy & _)|[_ Hk]].
  - by left.
  - right. by eapply list_elem_of_lookup_2.
Qed.

Lemma findOne_elem_of (P : User.t → Prop) `{∀ u, Decision (P u)} us u :
  User.findOne P us = Some u → u ∈ us ∧ P u.
Proof.
  unfold User.findOne. destruct (list_find P us) as [[k x]|] eqn:Hk; [|done].
  intros [= <-]. apply find_lookup in Hk as [Hk HP].
  split; [by eapply list_elem_of_lookup_2|done].
Qed.

Lemma findOne_None (P : User.t → Prop) `{∀ u, Decision (P u)} us :
  User.findOne P us = None ↔ ∀ u, u ∈ us → ¬ P u.
Proof.
  unfold User.findOne. split.
  - intros Hnone. destruct (list_find P us) eqn:Hfind; [done|].
    apply list_find_None in Hfind. by apply Forall_forall.
  - intros Hall. apply Forall_forall in Hall.
    apply (list_find_None P) in Hall. by rewrite Hall.
Qed.

Lemma post_users_register_inv `{Bcrypt} db name email password salt uuid db' a :
  post_users_register db name email password salt uuid = (db', a) →
  (db' = db ∧ failed a) ∨
  (name ≠ "" ∧ email ≠ "" ∧ password ≠ "" ∧
   (∀ u, u ∈ users db → User.email u ≠ email) ∧
   (uuid ∉ User.id <$> users db) ∧
   User_valid (User.mk uuid name email (bcrypt_hash password salt)) ∧
   db' = with_users
           (users db ++ [User.mk uuid name email (bcrypt_hash password salt)])
           db ∧
   a = Success 201 (mkUserInfo uuid name email)).
Proof.
  unfold post_users_register, User_save.
  case_decide as Hfields; [intros [= <- <-]; by left|].
  destruct (User.findOne _ _) eqn:Hemail; [intros [= <- <-]; by left|].
  repeat case_decide; intros [= <- <-]; try by left.
  right. rewrite findOne_None in Hemail.
  split_and!; try done; intros ->; tauto.
Qed.

Lemma post_items_inv db name description ownerId uuid db' a :
  post_items db name description ownerId uuid = (db', a) →
  (db' = db ∧ failed a) ∨
  ∃ owner,
    name ≠ "" ∧ description ≠ "" ∧ ownerId ≠ "" ∧
    User.findOne (λ u, User.id u = ownerId) (users db) = Some owner ∧
    owner ∈ users db ∧ User.id owner = ownerId ∧
    (uuid ∉ Item.id <$> items db) ∧
    db' = with_items
            (items db ++ [Item.mk uuid name description ownerId available])
            db ∧
    a = Success 201
          (Item.mk uuid name description ownerId available, owner_of owner).
Proof.
  unfold post_items, Item_save.
  case_decide as Hfields; [intros [= <- <-]; by left|].
  destruct (User.findOne _ _) as [owner|] eqn:Howner;
    [|intros [= <- <-]; by left].
  destruct (findOne_elem_of _ _ _ Howner) as [Hin Hid]. simpl in Hid.
  repeat case_decide; intros [= <- <-]; try by left.
  right. exists owner. rewrite Hid.
  split_and!; try done; intros ->; tauto.
Qed.

(** [PUT /api/items/:id] writes nothing. *)
Lemma put_items_id_same {V} db id (available : option V) :
  (put_items_id db id available).1 = db.
Proof.
  unfold put_items_id, Item.findOneAndUpdate. destruct available; [|done].
  destruct (list_find _ (items db)) as [[k d]|] eqn:Hk; [|done]. simpl.
  apply find_lookup in Hk as [Hk _]. unfold with_items.
  rewrite list_insert_id by done. by destruct db.
Qed.

(** ** What no call changes *)

Lemma fmap_insert_same {A B} (g : A → B) (l : list A) n x y :
  l !! n = Some x → g y = g x → g <$> <[n := y]> l = g <$> l.
Proof.
  intros Hn Hg. rewrite list_fmap_insert, Hg. apply list_insert_id.
  by rewrite list_lookup_fmap, Hn.
Qed.

Lemma fmap_fmap_same {A B} (g : A → B) (f : A → A) (l : list A) :
  (∀ x, g (f x) = g x) → g <$> (f <$> l) = g <$> l.
Proof.
  intros Hg. rewrite <- list_fmap_compose. apply list_fmap_ext.
  intros _ x _. apply Hg.
Qed.

Lemma tx_key_decided st now d : tx_key (decided st now d) = tx_key d.
Proof. unfold decided. by case_decide. Qed.

Lemma tx_key_updateMany (P : Transaction.t → Prop) `{∀ d, Decision (P d)}
    st txs :
  tx_key <$> Transaction.updateMany P (Transaction.set_status st) txs
  = tx_key <$> txs.
Proof.
  unfold Transaction.updateMany. apply fmap_fmap_same.
  intros x. by case_decide.
Qed.

(** A Coordinator operation leaves the ledger's ids, items, lenders,
    borrowers and start dates in place, or appends one new document
    under an unused id. *)
Lemma step_tx_keys db op :
  tx_key <$> transactions (step db op).1 = tx_key <$> transactions db ∨
  ∃ t, (Transaction.id t ∉ Transaction.id <$> transactions db) ∧
       transactions (step db op).1 = transactions db ++ [t].
Proof.
  destruct (step db op) as [db' r] eqn:Hstep.
  destruct op as [i b u now|tid uid stt now|i b]; simpl in *.
  - apply post_transactions_inv in Hstep
      as [[-> _]|(k & it & _ & _ & _ & _ & Hu & -> & _)]; [by left|].
    right. exists (borrow_request i b u now it). by split.
  - left. apply put_transactions_id_inv in Hstep
      as [[-> _]|(n & d & st & Htx & _ & _ & [(_ & -> & _)|(_ & -> & _)])];
      [done| |done].
    apply find_lookup in Htx as [Hn _]. simpl.
    apply (fmap_insert_same _ _ _ d); [done|apply tx_key_decided].
  - left. apply post_transactions_cancel_inv in Hstep
      as [(-> & _)|(n & d & Hn & _ & _ & [(_ & -> & _)|[Hd Hstep]])];
      [done..|]. simpl in Hstep.
    destruct Hstep as [(_ & -> & _)|(k & it & _ & -> & _)]; simpl.
    + by apply (fmap_insert_same _ _ _ d).
    + rewrite tx_key_updateMany. by apply (fmap_insert_same _ _ _ d).
Qed.

(** A Coordinator operation leaves the ids, names, descriptions and
    owners of the items in place. *)
Lemma step_item_keys db op :
  item_key <$> items (step db op).1 = item_key <$> items db.
Proof.
  assert (∀ (P : Item.t → Prop) `{∀ x, Decision (P x)} st its,
            item_key <$> (Item.findOneAndUpdate P (Item.set_status st) its).1
            = item_key <$> its) as Hupd.
  { intros P ? st its. unfold Item.findOneAndUpdate.
    destruct (list_find P its) as [[k it]|] eqn:Hk; [|done]. simpl.
    apply find_lookup in Hk as [Hk _]. by apply (fmap_insert_same _ _ _ it). }
  destruct (step db op) as [db' r] eqn:Hstep.
  destruct op as [i b u now|tid uid stt now|i b]; simpl in *.
  - apply post_transactions_inv in Hstep
      as [[-> _]|(? & ? & _ & _ & _ & _ & _ & -> & _)]; done.
  - apply put_transactions_id_inv in Hstep
      as [[-> _]|(? & ? & ? & _ & _ & _ & [(_ & -> & _)|(_ & -> & _)])];
      [done|..]; simpl; unfold decided_items; case_decide; auto.
  - apply post_transactions_cancel_inv in Hstep
      as [(-> & _)|(n & d & _ & _ & _ & [(_ & -> & _)|[Hd Hstep]])];
      [done..|]. simpl in Hstep.
    destruct Hstep as [(_ & -> & _)|(k & it & Hk & -> & _)]; [done|].
    apply find_lookup in Hk as [Hk _]. simpl.
    by apply (fmap_insert_same _ _ _ it).
Qed.

Lemma step_users db op : users (step db op).1 = users db.
Proof.
  destruct (step db op) as [db' r] eqn:Hstep.
  destruct op as [i b u now|tid uid stt now|i b]; simpl in *.
  - apply post_transactions_inv in Hstep
      as [[-> _]|(? & ? & _ & _ & _ & _ & _ & -> & _)]; done.
  - apply put_transactions_id_inv in Hstep
      as [[-> _]|(? & ? & ? & _ & _ & _ & [(_ & -> & _)|(_ & -> & _)])];
      done.
  - apply post_transactions_cancel_inv in Hstep
      as [(-> & _)|(n & d & _ & _ & _ & [(_ & -> & _)|[Hd Hstep]])];
      [done..|]. simpl in Hstep.
    by destruct Hstep as [(_ & -> & _)|(k & it & _ & -> & _)].
Qed.

(** Where the documents of the ledger after an operation come from: a
    document as it was; a document of before, cancelled or decided; or
    the request of a borrower who does not own the item. *)
Lemma step_tx_origin db op t' :
  t' ∈ transactions (step db op).1 →
  t' ∈ transactions db ∨
  (∃ d, d ∈ transactions db ∧ t' = Transaction.set_status cancelled d) ∨
  (∃ d st now, d ∈ transactions db ∧ (st = approved ∨ st = rejected) ∧
               t' = decided st now d) ∨
  (∃ i b u now it, it ∈ items db ∧ Item.id it = i ∧ Item.ownerId it ≠ b ∧
                   t' = borrow_request i b u now it).
Proof.
  destruct (step db op) as [db' r] eqn:Hstep.
  destruct op as [i b u now|tid uid stt now|i b]; simpl in *.
  - apply post_transactions_inv in Hstep
      as [[-> _]|(k & it & Hk & Hown & _ & _ & _ & -> & _)]; [by left|].
    simpl. intros [Ht| ->%list_elem_of_singleton]%elem_of_app; [by left|].
    apply find_lookup in Hk as [Hk Hid].
    right; right; right. exists i, b, u, now, it.
    split_and!; [by eapply list_elem_of_lookup_2|done..].
  - apply put_transactions_id_inv in Hstep
      as [[-> _]|(n & d & st & Htx & _ & Hst & [(_ & -> & _)|(_ & -> & _)])];
      [by left| |by left].
    apply find_lookup in Htx as [Hn _]. simpl.
    intros [->|Ht]%elem_of_insert_inv; [|by left].
    right; right; left. exists d, st, now.
    split_and!; [by eapply list_elem_of_lookup_2| |done].
    apply decision_of_cases in Hst. tauto.
  - apply post_transactions_cancel_inv in Hstep
      as [(-> & _)|(n & d & Hn & _ & _ & [(_ & -> & _)|[Hd Hstep]])];
      [by left..|]. simpl in Hstep.
    assert (∀ z, z ∈ <[n := Transaction.set_status cancelled d]>
                       (transactions db) →
              z ∈ transactions db ∨
              ∃ d, d ∈ transactions db ∧
                   z = Transaction.set_status cancelled d) as Hsaved.
    { intros z [->|Hz]%elem_of_insert_inv; [|by left].
      right. exists d. split; [by eapply list_elem_of_lookup_2|done]. }
    destruct Hstep as [(_ & -> & _)|(k & it & _ & -> & _)]; simpl.
    + intros [?|?]%Hsaved; tauto.
    + unfold Transaction.updateMany.
      intros (z & -> & [Hz|(d0 & Hd0 & ->)]%Hsaved)%list_elem_of_fmap;
        case_decide; eauto 6.
Qed.

(** A call leaves every stored user as it is and in place. *)
Lemma call_users `{Bcrypt} db c : users db `prefix_of` users (call db c).
Proof.
  destruct c as [op|n e p s u|n d o u|i a]; simpl.
  - by rewrite step_users.
  - destruct (post_users_register db n e p s u) as [db' a] eqn:Hreg.
    apply post_users_register_inv in Hreg
      as [[-> _]|(_ & _ & _ & _ & _ & _ & -> & _)]; [done|].
    simpl. by apply prefix_app_r.
  - destruct (post_items db n d o u) as [db' a] eqn:Hadd.
    apply post_items_inv in Hadd
      as [[-> _]|(? & _ & _ & _ & _ & _ & _ & _ & -> & _)]; done.
  - by rewrite put_items_id_same.
Qed.

(** A call leaves the ledger's keys in place or appends one document
    under an unused id. *)
Lemma call_tx_keys `{Bcrypt} db c :
  tx_key <$> transactions (call db c) = tx_key <$> transactions db ∨
  ∃ t, (Transaction.id t ∉ Transaction.id <$> transactions db) ∧
       transactions (call db c) = transactions db ++ [t].
Proof.
  destruct c as [op|n e p s u|n d o u|i a]; simpl.
  - apply step_tx_keys.
  - left. destruct (post_users_register db n e p s u) as [db' a] eqn:Hreg.
    apply post_users_register_inv in Hreg
      as [[-> _]|(_ & _ & _ & _ & _ & _ & -> & _)]; done.
  - left. destruct (post_items db n d o u) as [db' a] eqn:Hadd.
    apply post_items_inv in Hadd
      as [[-> _]|(? & _ & _ & _ & _ & _ & _ & _ & -> & _)]; done.
  - left. by rewrite put_items_id_same.
Qed.

(** A call leaves the items' keys in place or appends one available
    item under an unused id, owned by a stored user. *)
Lemma call_item_keys `{Bcrypt} db c :
  item_key <$> items (call db c) = item_key <$> items db ∨
  ∃ n d o u owner,
    (u ∉ Item.id <$> items db) ∧ owner ∈ users db ∧ User.id owner = o ∧
    n ≠ "" ∧ d ≠ "" ∧ o ≠ "" ∧
    items (call db c) = items db ++ [Item.mk u n d o available].
Proof.
  destruct c as [op|n e p s u|n d o u|i a]; simpl.
  - left. apply step_item_keys.
  - left. destruct (post_users_register db n e p s u) as [db' a] eqn:Hreg.
    apply post_users_register_inv in Hreg
      as [[-> _]|(_ & _ & _ & _ & _ & _ & -> & _)]; done.
  - destruct (post_items db n d o u) as [db' a] eqn:Hadd.
    apply post_items_inv in Hadd
      as [[-> _]|(owner & ? & ? & ? & _ & ? & ? & ? & -> & _)]; [by left|].
    right. by exists n, d, o, u, owner.
  - left. by rewrite put_items_id_same.
Qed.

Lemma call_tx_origin `{Bcrypt} db c t' :
  t' ∈ transactions (call db c) →
  t' ∈ transactions db ∨
  (∃ d, d ∈ transactions db ∧ t' = Transaction.set_status cancelled d) ∨
  (∃ d st now, d ∈ transactions db ∧ (st = approved ∨ st = rejected) ∧
               t' = decided st now d) ∨
  (∃ i b u now it, it ∈ items db ∧ Item.id it = i ∧ Item.ownerId it ≠ b ∧
                   t' = borrow_request i b u now it).
Proof.
  destruct c as [op|n e p s u|n d o u|i a]; simpl.
  - apply step_tx_origin.
  - destruct (post_users_register db n e p s u) as [db' a] eqn:Hreg.
    apply post_users_register_inv in Hreg
      as [[-> _]|(_ & _ & _ & _ & _ & _ & -> & _)]; by left.
  - destruct (post_items db n d o u) as [db' a] eqn:Hadd.
    apply post_items_inv in Hadd
      as [[-> _]|(? & _ & _ & _ & _ & _ & _ & _ & -> & _)]; by left.
  - rewrite put_items_id_same. by left.
Qed.

(** Every item of before is still stored, with its id and owner. *)
Lemma call_item_survives `{Bcrypt} db c it :
  it ∈ items db →
  ∃ it', it' ∈ items (call db c) ∧ item_key it' = item_key it.
Proof.
  intros Hit. apply (list_elem_of_fmap_2 item_key) in Hit.
  destruct (call_item_keys db c) as [Heq|(n & d & o & u & w & _ & _ & _ & _ & _ & _ & Heq)].
  - rewrite <- Heq in Hit.
    apply list_elem_of_fmap in Hit as (it' & ? & ?). by exists it'.
  - apply list_elem_of_fmap in Hit as (it0 & ? & ?). exists it0.
    split; [|done]. rewrite Heq. apply elem_of_app. by left.
Qed.

(** ** Invariants of a database filled through the API *)

Lemma item_keys_ids (l1 l2 : list Item.t) :
  item_key <$> l1 = item_key <$> l2 → Item.id <$> l1 = Item.id <$> l2.
Proof.
  intros Heq. apply (f_equal (fmap (λ k, k.1.1.1))) in Heq.
  rewrite <- !list_fmap_compose in Heq. exact Heq.
Qed.

Lemma tx_keys_ids (l1 l2 : list Transaction.t) :
  tx_key <$> l1 = tx_key <$> l2 →
  Transaction.id <$> l1 = Transaction.id <$> l2.
Proof.
  intros Heq. apply (f_equal (fmap (λ k, k.1.1.1.1.1))) in Heq.
  rewrite <- !list_fmap_compose in Heq. exact Heq.
Qed.

Lemma NoDup_snoc_fresh {A} (l : list A) x : NoDup l → x ∉ l → NoDup (l ++ [x]).
Proof.
  intros Hl Hx. apply NoDup_app. split_and!; [done| |apply NoDup_singleton].
  intros y Hy ->%list_elem_of_singleton. done.
Qed.

Lemma call_conforms `{Bcrypt} db c : conforms db → conforms (call db c).
Proof.
  intros Hc. destruct c as [op|n e p s u|n d o u|i a]; simpl.
  - by apply step_conforms.
  - destruct (post_users_register db n e p s u) as [db' a] eqn:Hreg.
    apply post_users_register_inv in Hreg
      as [[-> _]|(_ & _ & _ & _ & _ & _ & -> & _)]; done.
  - destruct (post_items db n d o u) as [db' a] eqn:Hadd.
    apply post_items_inv in Hadd
      as [[-> _]|(? & _ & _ & _ & _ & _ & _ & Hu & -> & _)]; [done|].
    destruct Hc as [Hnd Hv]. split; [|done]. simpl.
    rewrite fmap_app. by apply NoDup_snoc_fresh.
  - by rewrite put_items_id_same.
Qed.

Lemma call_unique_keys `{Bcrypt} db c : unique_keys db → unique_keys (call db c).
Proof.
  intros (Hui & Hue & Hii & Hti). unfold unique_keys. split_and!.
  - destruct c as [op|n e p s u|n d o u|i a]; simpl.
    + by rewrite step_users.
    + destruct (post_users_register db n e p s u) as [db' a] eqn:Hreg.
      apply post_users_register_inv in Hreg
        as [[-> _]|(_ & _ & _ & _ & Hu & _ & -> & _)]; [done|].
      simpl. rewrite fmap_app. by apply NoDup_snoc_fresh.
    + destruct (post_items db n d o u) as [db' a] eqn:Hadd.
      apply post_items_inv in Hadd
        as [[-> _]|(? & _ & _ & _ & _ & _ & _ & _ & -> & _)]; done.
    + by rewrite put_items_id_same.
  - destruct c as [op|n e p s u|n d o u|i a]; simpl.
    + by rewrite step_users.
    + destruct (post_users_register db n e p s u) as [db' a] eqn:Hreg.
      apply post_users_register_inv in Hreg
        as [[-> _]|(_ & _ & _ & He & _ & _ & -> & _)]; [done|].
      simpl. rewrite fmap_app. apply NoDup_snoc_fresh; [done|].
      intros (x & Hx & Hin)%list_elem_of_fmap. by apply (He x Hin).
    + destruct (post_items db n d o u) as [db' a] eqn:Hadd.
      apply post_items_inv in Hadd
        as [[-> _]|(? & _ & _ & _ & _ & _ & _ & _ & -> & _)]; done.
    + by rewrite put_items_id_same.
  - destruct (call_item_keys db c)
      as [Heq|(n & d & o & u & w & Hu & _ & _ & _ & _ & _ & ->)].
    + by rewrite (item_keys_ids _ _ Heq).
    + rewrite fmap_app. by apply NoDup_snoc_fresh.
  - destruct (call_tx_keys db c) as [Heq|(t & Ht & ->)].
    + by rewrite (tx_keys_ids _ _ Heq).
    + rewrite fmap_app. by apply NoDup_snoc_fresh.
Qed.

Lemma call_referential `{Bcrypt} db c : referential db → referential (call db c).
Proof.
  intros Href t' Ht'.
  assert (∃ it, it ∈ items db ∧ Item.id it = Transaction.itemId t' ∧
                Item.ownerId it = Transaction.lenderId t') as (it & Hit & Hi & Ho).
  { apply call_tx_origin in Ht'
      as [Ht|[(d & Hd & ->)|[(d & st & now & Hd & _ & ->)
         |(i & b & u & now & it & Hit & Hi & _ & ->)]]].
    - by apply Href.
    - by apply (Href d).
    - destruct (Href d Hd) as (it & ? & ? & ?). exists it.
      unfold decided. by case_decide.
    - by exists it. }
  destruct (call_item_survives db c it Hit) as (it' & Hit' & [= Hid _ _ Hown]).
  exists it'. split_and!; [done|congruence..].
Qed.

Lemma call_owners_exist `{Bcrypt} db c : owners_exist db → owners_exist (call db c).
Proof.
  intros Hown it' Hit'.
  assert (∃ u, u ∈ users db ∧ User.id u = Item.ownerId it') as (u & Hu & Hid).
  { apply (list_elem_of_fmap_2 item_key) in Hit'.
    destruct (call_item_keys db c)
      as [Heq|(n & d & o & uu & w & _ & Hw & Hwo & _ & _ & _ & Heq)].
    - rewrite Heq in Hit'.
      apply list_elem_of_fmap in Hit' as (it & [= _ _ _ Ho] & Hit).
      destruct (Hown it Hit) as (u & ? & ?). exists u. split; congruence.
    - rewrite Heq, fmap_app in Hit'.
      apply elem_of_app in Hit' as [Hit'|Hit'%list_elem_of_singleton].
      + apply list_elem_of_fmap in Hit' as (it & [= _ _ _ Ho] & Hit).
        destruct (Hown it Hit) as (u & ? & ?). exists u. split; congruence.
      + injection Hit' as _ _ _ Ho. exists w. split; congruence. }
  exists u. split; [|done].
  eapply elem_of_prefix; [exact Hu|apply call_users].
Qed.

Lemma call_no_self_loan `{Bcrypt} db c : no_self_loan db → no_self_loan (call db c).
Proof.
  intros Hno t' Ht'.
  apply call_tx_origin in Ht'
    as [Ht|[(d & Hd & ->)|[(d & st & now & Hd & _ & ->)
       |(i & b & u & now & it & Hit & Hi & Hown & ->)]]].
  - by apply Hno.
  - by apply (Hno d).
  - unfold decided. case_decide; by apply (Hno d).
  - simpl. congruence.
Qed.

Lemma call_dated `{Bcrypt} db c : dated db → dated (call db c).
Proof.
  intros Hdated t' Ht'.
  apply call_tx_origin in Ht'
    as [Ht|[(d & Hd & ->)|[(d & st & now & Hd & Hst & ->)
       |(i & b & u & now & it & Hit & Hi & Hown & ->)]]].
  - by apply Hdated.
  - destruct (Hdated d Hd) as (_ & _ & He). by split_and!.
  - destruct (Hdated d Hd) as (_ & _ & He). unfold decided.
    destruct Hst as [-> | ->]; simpl; by split_and!.
  - by split_and!.
Qed.

Lemma call_api_built `{Bcrypt} db c : api_built db → api_built (call db c).
Proof.
  intros (? & ? & ? & ? & ? & ?). unfold api_built.
  split_and!; auto using call_conforms, call_unique_keys, call_referential,
    call_owners_exist, call_no_self_loan, call_dated.
Qed.

Lemma empty_db_api_built : api_built empty_db.
Proof.
  unfold api_built, conforms, unique_keys, referential, owners_exist,
    no_self_loan, dated. simpl.
  split_and!; try apply NoDup_nil_2; try apply Forall_nil_2;
    by intros ? ?%elem_of_nil.
Qed.

Lemma calls_api_built `{Bcrypt} db cs : api_built db → api_built (calls db cs).
Proof.
  revert db. induction cs as [|c cs IH]; intros db Hdb; [done|].
  simpl. by apply IH, call_api_built.
Qed.

(** ** Failures of the Coordinator on a database filled through the API *)

(** Where every transaction is of a stored item and passes validation,
    the item lookup of the cancel route (line 532) and the [save()] of
    the decision (line 482) cannot fail, and every failure comes before
    the first write. *)
Lemma step_failure_writes_nothing db op :
  conforms db → referential db → isFailure (step db op).2 →
  (step db op).1 = db.
Proof.
  intros [_ Hvalid] Href Hfail.
  destruct (step db op) as [db' r] eqn:Hstep.
  destruct op as [i b u now|tid uid stt now|i b]; simpl in *.
  - apply post_transactions_inv in Hstep
      as [[-> _]|(? & ? & _ & _ & _ & _ & _ & _ & ->)]; done.
  - apply put_transactions_id_inv in Hstep
      as [[-> _]|(k & d & ? & Htx & _ & _ & [(_ & _ & ->)|(Hbad & _)])];
      [done..|].
    apply find_lookup in Htx as [Hk _]. destruct Hbad.
    eapply Forall_lookup_1; eauto.
  - apply post_transactions_cancel_inv in Hstep
      as [(-> & _)|(k & d & Hk & [Hi _] & _ & [(_ & -> & _)|[Hd Hstep]])];
      [done..|]. simpl in Hstep.
    destruct Hstep as [(Hnone & _)|(? & ? & _ & _ & ->)]; [|done].
    destruct (Href d) as (it & Hit & Hid & _);
      [by eapply list_elem_of_lookup_2|].
    apply list_find_None in Hnone.
    destruct (proj1 (Forall_forall _ _) Hnone it Hit). congruence.
Qed.

(** The seeded database [orphaned] is not made by any sequence of calls:
    its transaction is of an item that is not stored. *)
Lemma orphaned_not_built `{Bcrypt} cs : calls empty_db cs ≠ orphaned.
Proof.
  intros Heq.
  destruct (calls_api_built empty_db cs empty_db_api_built)
    as (_ & _ & Href & _).
  rewrite Heq in Href.
  destruct (Href loan) as (it & Hit & _); [apply list_elem_of_here|].
  by apply elem_of_nil in Hit.
Qed.

(** C4: on every database that a sequence of calls makes of the empty
    one, a Coordinator operation ([RequestBorrow], [DecideRequest],
    [CancelOrReturn]) that answers with a failure has written nothing:
    users, items and transactions are as before the operation. *)
Theorem C4_failure_writes_nothing `{Bcrypt} cs op :
  isFailure (step (calls empty_db cs) op).2 →
  (step (calls empty_db cs) op).1 = calls empty_db cs.
Proof.
  intros Hfail.
  destruct (calls_api_built empty_db cs empty_db_api_built)
    as (Hconf & _ & Href & _).
  by apply step_failure_writes_nothing.
Qed.

Lemma C4_failure_writes_nothing_witness :
  (step built (CancelOrReturn "I1" "U3")).1 = built ∧
  (step built (DecideRequest "T1" "U2" "rejected" 30)).1 = built ∧
  (step built (RequestBorrow "I1" "U3" "T2" 30)).1 = built.
Proof.
  split_and!.
  - apply (C4_failure_writes_nothing (H := toy_bcrypt) api_scenario
             (CancelOrReturn "I1" "U3")).
    by vm_compute.
  - apply (C4_failure_writes_nothing (H := toy_bcrypt) api_scenario
             (DecideRequest "T1" "U2" "rejected" 30)).
    by vm_compute.
  - apply (C4_failure_writes_nothing (H := toy_bcrypt) api_scenario
             (RequestBorrow "I1" "U3" "T2" 30)).
    by vm_compute.
Defined.

(** ** User routes *)

(** The first match of a collection that ends in the only match. *)
Lemma findOne_snoc (P : User.t → Prop) `{∀ u, Decision (P u)} us u :
  (∀ x, x ∈ us → ¬ P x) → P u → User.findOne P (us ++ [u]) = Some u.
Proof.
  intros Hnone Hu. unfold User.findOne.
  assert (list_find P (us ++ [u]) = Some (length us, u)) as ->; [|done].
  apply list_find_Some. split_and!; [|done|].
  - rewrite lookup_app_r by done. by rewrite Nat.sub_diag.
  - intros j x Hj Hlt. apply Hnone.
    rewrite lookup_app_l in Hj by done. by eapply list_elem_of_lookup_2.
Qed.

(** X1: registration refuses an empty name, email or password with 400
    and, past that check, an email that a stored user has with 409; in
    both cases nothing is written. *)
Theorem X1_register_refusals `{Bcrypt} db name email password salt uuid :
  ((name = "" ∨ email = "" ∨ password = "") →
   post_users_register db name email password salt uuid
     = (db, Failure 400 "All fields are required")) ∧
  (name ≠ "" → email ≠ "" → password ≠ "" →
   (∃ u, u ∈ users db ∧ User.email u = email) →
   post_users_register db name email password salt uuid
     = (db, Failure 409 "Email already in use")).
Proof.
  unfold post_users_register. split.
  - intros Hempty. by rewrite decide_True.
  - intros Hn He Hp (u & Hu & Hemail). rewrite decide_False by tauto.
    destruct (User.findOne _ _) eqn:Hfind; [done|].
    rewrite findOne_None in Hfind. by destruct (Hfind u Hu).
Qed.

Lemma X1_register_refusals_witness :
  post_users_register (H := toy_bcrypt) fresh "Dan" "" "pw" "s1" "U4"
    = (fresh, Failure 400 "All fields are required") ∧
  post_users_register (H := toy_bcrypt) fresh "Dan" "ann@example.org" "pw"
      "s1" "U4"
    = (fresh, Failure 409 "Email already in use").
Proof.
  split.
  - apply (X1_register_refusals (H := toy_bcrypt)). right. by left.
  - apply (X1_register_refusals (H := toy_bcrypt)); [done..|].
    exists ann. split; [apply list_elem_of_here|done].
Defined.

(** X2: a successful registration answers 201 with the new id, the name
    and the email, and appends exactly one user, whose password is the
    bcrypt hash; the id and the email were those of no stored user;
    items and transactions are untouched. *)
Theorem X2_register_effect `{Bcrypt}
    db name email password salt uuid db' code info :
  post_users_register db name email password salt uuid
    = (db', Success code info) →
  code = 201 ∧ info = mkUserInfo uuid name email ∧
  users db'
    = users db ++ [User.mk uuid name email (bcrypt_hash password salt)] ∧
  items db' = items db ∧ transactions db' = transactions db ∧
  (∀ u, u ∈ users db → User.id u ≠ uuid ∧ User.email u ≠ email).
Proof.
  intros [[_ []]|(_ & _ & _ & He & Hu & _ & -> & [= -> ->])]
    %post_users_register_inv.
  split_and!; try done. intros u Hin. split; [|by apply He].
  intros Hid. apply Hu. rewrite <- Hid. by apply list_elem_of_fmap_2.
Qed.

Lemma X2_register_effect_witness :
  users (post_users_register (H := toy_bcrypt) fresh "Dan" "dan@example.org"
           "pw" "s1" "U4").1
    = users fresh ++ [User.mk "U4" "Dan" "dan@example.org" "s1pw"].
Proof.
  eapply (X2_register_effect (H := toy_bcrypt) fresh "Dan" "dan@example.org"
            "pw" "s1" "U4").
  by vm_compute.
Defined.

(** X3: after a successful registration, a login with the same email
    answers 200 with the registered id, name and email for every
    password that [bcrypt.compare] accepts against the stored hash, and
    401 for every password that it rejects; the lookup of the new id
    answers the same details. *)
Theorem X3_register_then_login `{Bcrypt}
    db name email password salt uuid db' code info :
  post_users_register db name email password salt uuid
    = (db', Success code info) →
  (∀ attempt,
     post_users_login db' email attempt
     = if bcrypt_compare attempt (bcrypt_hash password salt)
       then Success 200 info
       else Failure 401 "Invalid email or password") ∧
  get_users_userId db' uuid = Success 200 info.
Proof.
  intros [[_ []]|(_ & _ & _ & He & Hu & _ & -> & [= -> ->])]
    %post_users_register_inv.
  split.
  - intros attempt. unfold post_users_login. simpl.
    by rewrite (findOne_snoc (λ u, User.email u = email)).
  - unfold get_users_userId. simpl.
    rewrite (findOne_snoc (λ u, User.id u = uuid)); [done| |done].
    intros x Hx Hid. apply Hu. rewrite <- Hid. by apply list_elem_of_fmap_2.
Qed.

Lemma X3_register_then_login_witness :
  post_users_login (H := toy_bcrypt)
    (post_users_register (H := toy_bcrypt) fresh "Dan" "dan@example.org"
       "pw" "s1" "U4").1
    "dan@example.org" "pw"
  = Success 200 (mkUserInfo "U4" "Dan" "dan@example.org").
Proof.
  destruct (X3_register_then_login (H := toy_bcrypt) fresh "Dan"
              "dan@example.org" "pw" "s1" "U4"
              (post_users_register (H := toy_bcrypt) fresh "Dan"
                 "dan@example.org" "pw" "s1" "U4").1
              201 (mkUserInfo "U4" "Dan" "dan@example.org"))
    as [Hlogin _]; [by vm_compute|].
  by rewrite Hlogin.
Defined.

(** ** Item routes *)

(** X4: the listing of a new item is refused with 400 when the name, the
    description or the owner id is empty and, past that check, with 404
    when no stored user has the owner id; nothing is written. *)
Theorem X4_add_item_refusals db name description ownerId uuid :
  ((name = "" ∨ description = "" ∨ ownerId = "") →
   post_items db name description ownerId uuid
     = (db, Failure 400 "All fields are required")) ∧
  (name ≠ "" → description ≠ "" → ownerId ≠ "" →
   (∀ u, u ∈ users db → User.id u ≠ ownerId) →
   post_items db name description ownerId uuid
     = (db, Failure 404 "Owner not found")).
Proof.
  unfold post_items. split.
  - intros Hempty. by rewrite decide_True.
  - intros Hn Hd Ho Hnone. rewrite decide_False by tauto.
    assert (User.findOne (λ u, User.id u = ownerId) (users db) = None) as ->;
      [|done].
    by apply findOne_None.
Qed.

Lemma X4_add_item_refusals_witness :
  post_items fresh "saw" "" "U1" "I2"
    = (fresh, Failure 400 "All fields are required") ∧
  post_items fresh "saw" "hand saw" "U4" "I2"
    = (fresh, Failure 404 "Owner not found").
Proof.
  split.
  - apply X4_add_item_refusals. right. by left.
  - apply X4_add_item_refusals; [done..|].
    apply Forall_forall. by repeat constructor.
Defined.



(** X6: [PUT /api/items/:id] never writes: whatever [available] holds,
    the database, and with it the status of every item, is as before.
    Without [available] it answers 400; with it, 404 when no item has
    the id, and otherwise 200 with the stored item that a lookup of the
    id finds. *)
Theorem X6_put_item_never_writes {V} db id (available : option V) :
  (put_items_id db id available).1 = db ∧
  (available = None →
   (put_items_id db id available).2
     = Failure 400 "Available status is required") ∧
  (is_Some available → (∀ it, it ∈ items db → Item.id it ≠ id) →
   (put_items_id db id available).2 = Failure 404 "Item not found") ∧
  (is_Some available → (∃ it, it ∈ items db ∧ Item.id it = id) →
   ∃ k it,
     Item.findOne (λ d, Item.id d = id) (items db) = Some (k, it) ∧
     it ∈ items db ∧ Item.id it = id ∧
     (put_items_id db id available).2 = Success 200 it) ∧
  (∀ code it,
     (put_items_id db id available).2 = Success code it →
     code = 200 ∧ is_Some available ∧ it ∈ items db ∧ Item.id it = id).
Proof.
  split_and!.
  - apply put_items_id_same.
  - by intros ->.
  - intros [v ->] Hnone. unfold put_items_id, Item.findOneAndUpdate.
    assert (list_find (λ d, Item.id d = id) (items db) = None) as ->;
      [|done].
    by apply list_find_None, Forall_forall.
  - intros [v ->] (x & Hx & Hxid).
    destruct (list_find_elem_of (λ d, Item.id d = id) _ x Hx Hxid)
      as [[k it] Hk].
    exists k, it. unfold put_items_id, Item.findOneAndUpdate, Item.findOne.
    rewrite Hk. apply find_lookup in Hk as [Hk Hid].
    split_and!; [done|by eapply list_elem_of_lookup_2|done..].
  - intros code it. unfold put_items_id, Item.findOneAndUpdate.
    destruct available as [v|]; [|done].
    destruct (list_find _ (items db)) as [[k d]|] eqn:Hk; [|done].
    simpl. intros [= <- <-]. apply find_lookup in Hk as [Hk Hid].
    split_and!; [done|by eexists|by eapply list_elem_of_lookup_2|done].
Qed.

Lemma X6_put_item_never_writes_witness :
  (put_items_id lent "I1" (Some true)).1 = lent ∧
  (put_items_id lent "I9" (Some true)).2 = Failure 404 "Item not found" ∧
  ∃ k it,
    Item.findOne (λ d, Item.id d = "I1") (items lent) = Some (k, it) ∧
    it ∈ items lent ∧ Item.id it = "I1" ∧
    (put_items_id lent "I1" (Some true)).2 = Success 200 it.
Proof.
  split_and!.
  - apply (X6_put_item_never_writes lent "I1" (Some true)).
  - apply (X6_put_item_never_writes lent "I9" (Some true)); [by eexists|].
    apply Forall_forall. by repeat constructor.
  - apply (X6_put_item_never_writes lent "I1" (Some true)); [by eexists|].
    exists (Item.set_status borrowed drill).
    split; [apply list_elem_of_here|done].
Defined.







(** ** The transactions of a user *)

(** The entries of [GET /api/transactions/user/:userId] are made one by
    one from the active transactions of the user. *)
Lemma get_transactions_user_entries db userId :
  ∃ item_of borrower_of lender_of,
    get_transactions_user db userId
    = Success 200
        ((λ t, mkEnriched (Transaction.id t) (Transaction.itemId t)
                 (Transaction.borrowerId t) (Transaction.lenderId t)
                 (Transaction.status t) (item_of t) (borrower_of t)
                 (lender_of t))
           <$> filter (involves userId) (transactions db)).
Proof. by eexists _, _, _. Qed.

(** X9: [GET /api/transactions/user/:userId] answers 200 with one entry
    for each transaction that is pending or approved and has the user
    as borrower or as lender, in the order of the ledger and with the
    id, item, borrower, lender and status of the transaction; rejected
    and cancelled transactions and those of other users are not
    listed. *)
Theorem X9_user_listing db userId :
  ∃ entries,
    get_transactions_user db userId = Success 200 entries ∧
    (λ e, (e_id e, e_itemId e, e_borrowerId e, e_lenderId e, e_status e))
      <$> entries
    = (λ t, (Transaction.id t, Transaction.itemId t,
             Transaction.borrowerId t, Transaction.lenderId t,
             Transaction.status t))
      <$> filter (involves userId) (transactions db) ∧
    (∀ e, e ∈ entries →
       (e_borrowerId e = userId ∨ e_lenderId e = userId) ∧
       isActive (e_status e)) ∧
    (∀ t, t ∈ transactions db →
       Transaction.borrowerId t = userId ∨ Transaction.lenderId t = userId →
       isActive (Transaction.status t) →
       ∃ e, e ∈ entries ∧ e_id e = Transaction.id t ∧
            e_itemId e = Transaction.itemId t ∧
            e_status e = Transaction.status t).
Proof.
  destruct (get_transactions_user_entries db userId)
    as (fi & fb & fl & ->).
  eexists. split_and!; [done|..].
  - rewrite <- list_fmap_compose. by apply list_fmap_ext.
  - intros e (t & -> & [Ht _]%list_elem_of_filter)%list_elem_of_fmap.
    exact Ht.
  - intros t Ht Hparty Hact.
    exists (mkEnriched (Transaction.id t) (Transaction.itemId t)
              (Transaction.borrowerId t) (Transaction.lenderId t)
              (Transaction.status t) (fi t) (fb t) (fl t)).
    split_and!; [|done..].
    apply (list_elem_of_fmap_2
             (λ t, mkEnriched (Transaction.id t) (Transaction.itemId t)
                     (Transaction.borrowerId t) (Transaction.lenderId t)
                     (Transaction.status t) (fi t) (fb t) (fl t))).
    apply list_elem_of_filter. by split.
Qed.

Lemma X9_user_listing_witness :
  ∃ e, e_id e = "T1" ∧ e_itemId e = "I1" ∧ e_status e = approved.
Proof.
  destruct (X9_user_listing lent "U2") as (entries & _ & _ & _ & Hall).
  destruct (Hall loan) as (e & _ & Hid & Hitem & Hst);
    [apply list_elem_of_here|by left|by right|].
  by exists e.
Defined.





(** A transaction of the user that is active is listed. *)
Lemma listed_if_involved db userId t :
  t ∈ transactions db → involves userId t →
  ∃ entries e,
    get_transactions_user db userId = Success 200 entries ∧ e ∈ entries ∧
    e_id e = Transaction.id t ∧ e_itemId e = Transaction.itemId t ∧
    e_borrowerId e = Transaction.borrowerId t ∧
    e_lenderId e = Transaction.lenderId t ∧
    e_status e = Transaction.status t.
Proof.
  intros Ht Hinv.
  destruct (get_transactions_user_entries db userId)
    as (fi & fb & fl & ->).
  eexists _, (mkEnriched (Transaction.id t) (Transaction.itemId t)
                (Transaction.borrowerId t) (Transaction.lenderId t)
                (Transaction.status t) (fi t) (fb t) (fl t)).
  split_and!; [done| |done..].
  apply (list_elem_of_fmap_2
           (λ t, mkEnriched (Transaction.id t) (Transaction.itemId t)
                   (Transaction.borrowerId t) (Transaction.lenderId t)
                   (Transaction.status t) (fi t) (fb t) (fl t))).
  apply list_elem_of_filter. by split.
Qed.

(** X12: after a successful [RequestBorrow], the listing of the borrower
    and the listing of the lender each hold the new transaction, as
    pending. *)
Theorem X12_request_is_listed db itemId borrowerId uuid now db' t who :
  post_transactions db itemId borrowerId uuid now = (db', Created t) →
  who = borrowerId ∨ who = Transaction.lenderId t →
  ∃ entries e,
    get_transactions_user db' who = Success 200 entries ∧ e ∈ entries ∧
    e_id e = uuid ∧ e_itemId e = itemId ∧ e_borrowerId e = borrowerId ∧
    e_lenderId e = Transaction.lenderId t ∧ e_status e = pending.
Proof.
  intros [[_ []]|(k & it & _ & _ & _ & _ & _ & -> & [= ->])]
    %post_transactions_inv Hwho.
  destruct (listed_if_involved
              (with_transactions
                 (transactions db ++ [borrow_request itemId borrowerId uuid now it])
                 db)
              who (borrow_request itemId borrowerId uuid now it))
    as (entries & e & ? & ? & ? & ? & ? & ? & ?).
  - simpl. apply elem_of_app. right. apply list_elem_of_here.
  - split; [|by left]. simpl in *. destruct Hwho as [-> | ->]; auto.
  - by exists entries, e.
Qed.



Lemma X12_request_is_listed_witness :
  ∃ entries e,
    get_transactions_user (step fresh (RequestBorrow "I1" "U2" "T1" 10)).1 "U1"
      = Success 200 entries ∧ e ∈ entries ∧
    e_id e = "T1" ∧ e_itemId e = "I1" ∧ e_borrowerId e = "U2" ∧
    e_lenderId e = "U1" ∧ e_status e = pending.
Proof.
  apply (X12_request_is_listed fresh "I1" "U2" "T1" 10
           (step fresh (RequestBorrow "I1" "U2" "T1" 10)).1
           (borrow_request "I1" "U2" "T1" 10 drill) "U1");
    [by vm_compute|by right].
Defined.

(** X13: after a successful [CancelOrReturn], no user's listing holds a
    transaction of the item. *)
Theorem X13_return_clears_listings
    db itemId borrowerId db' transaction item borrower lender who entries :
  post_transactions_cancel db itemId borrowerId
    = (db', Returned transaction item borrower lender) →
  get_transactions_user db' who = Success 200 entries →
  ∀ e, e ∈ entries → e_itemId e ≠ itemId.
Proof.
  intros Hcancel. unfold get_transactions_user.
  intros [= <-] e (t & -> & [[_ Hact] Ht]%list_elem_of_filter)
    %list_elem_of_fmap. simpl. intros Hid.
  apply post_transactions_cancel_inv in Hcancel
    as [(_ & [=] & _)
       |(n & d & _ & _ & _ & [(_ & _ & [=])|[_ Hstep]])].
  simpl in Hstep.
  destruct Hstep as [(_ & _ & [=])|(k & it & _ & -> & _)]. simpl in Ht.
  pose proof (updateMany_cancelled itemId
    (<[n := Transaction.set_status cancelled d]> (transactions db)))
    as Hnone.
  by apply (proj1 (Forall_forall _ _) Hnone t Ht).
Qed.

Lemma X13_return_clears_listings_witness : e_itemId saw_entry ≠ "I1".
Proof.
  apply (X13_return_clears_listings two_requests "I1" "U2"
           (step two_requests (CancelOrReturn "I1" "U2")).1
           (Transaction.set_status cancelled
              (borrow_request "I1" "U2" "T1" 10 drill))
           drill (Some bob) (Some ann) "U2" [saw_entry]);
    [by vm_compute..|apply list_elem_of_here].
Defined.

(** X14: after a successful [DecideRequest], an approved transaction is
    in the listing of its lender and of its borrower, as approved; a
    rejected one is, with unique transaction ids, in nobody's
    listing. *)
Theorem X14_decision_and_listing db id uid decision now db' t :
  put_transactions_id db id uid decision now = (db', Decided t) →
  (Transaction.status t = approved →
   ∀ who, who = Transaction.lenderId t ∨ who = Transaction.borrowerId t →
     ∃ entries e,
       get_transactions_user db' who = Success 200 entries ∧ e ∈ entries ∧
       e_id e = id ∧ e_status e = approved) ∧
  (Transaction.status t = rejected →
   NoDup (Transaction.id <$> transactions db) →
   ∀ who entries,
     get_transactions_user db' who = Success 200 entries →
     ∀ e, e ∈ entries → e_id e ≠ id).
Proof.
  intros [(_ & [] & _)
         |(n & d & st & Htx & _ & _ & [(_ & -> & [= ->])|(_ & _ & [=])])]
    %put_transactions_id_inv.
  apply find_lookup in Htx as [Hn Hid]. simpl in Hid.
  assert (Transaction.id (decided st now d) = id) as Hid'
    by (unfold decided; by case_decide).
  split.
  - intros Hst who Hwho.
    destruct (listed_if_involved
                (mkDB (users db) (decided_items st d (items db))
                   (<[n := decided st now d]> (transactions db)))
                who (decided st now d))
      as (entries & e & ? & ? & ? & _ & _ & _ & ?).
    + simpl. eapply list_elem_of_lookup_2, list_lookup_insert_eq.
      by eapply lookup_lt_Some.
    + split; [destruct Hwho as [-> | ->]; auto|]. rewrite Hst. by right.
    + exists entries, e. split_and!; congruence.
  - intros Hst Hnd who entries. unfold get_transactions_user.
    intros [= <-] e (x & -> & [[_ Hact] [k Hk]%list_elem_of_lookup]
                      %list_elem_of_filter)%list_elem_of_fmap.
    simpl in *. intros Hx.
    apply list_lookup_insert_Some in Hk as [(_ & <- & _)|[Hkn Hk]].
    + rewrite Hst in Hact. destruct Hact; done.
    + apply Hkn. symmetry.
      eapply (NoDup_lookup _ _ _ _ Hnd); rewrite list_lookup_fmap.
      * by rewrite Hk.
      * rewrite Hn. simpl. congruence.
Qed.

Lemma X14_decision_and_listing_witness :
  (∃ entries e,
     get_transactions_user lent "U2" = Success 200 entries ∧ e ∈ entries ∧
     e_id e = "T1" ∧ e_status e = approved) ∧
  e_id saw_entry ≠ "T1".
Proof.
  split.
  - destruct (X14_decision_and_listing
                (run fresh [RequestBorrow "I1" "U2" "T1" 10])
                "T1" "U1" "approved" 20 lent loan) as [Happroved _];
      [by vm_compute|].
    apply Happroved; [done|by right].
  - destruct (X14_decision_and_listing two_requests "T1" "U1" "rejected" 20
                (step two_requests (DecideRequest "T1" "U1" "rejected" 20)).1
                (decided rejected 20 (borrow_request "I1" "U2" "T1" 10 drill)))
      as [_ Hrejected]; [by vm_compute|].
    apply (Hrejected eq_refl) with "U2" [saw_entry];
      [|by vm_compute|apply list_elem_of_here].
    apply (bool_decide_unpack _). by vm_compute.
Defined.

(** ** What the API keeps *)

Lemma calls_item_keys `{Bcrypt} db cs :
  item_key <$> items db `prefix_of` item_key <$> items (calls db cs).
Proof.
  revert db. induction cs as [|c cs IH]; intros db; [done|].
  simpl. etrans; [|apply IH].
  destruct (call_item_keys db c)
    as [-> |(? & ? & ? & ? & ? & _ & _ & _ & _ & _ & _ & ->)]; [done|].
  rewrite fmap_app. by apply prefix_app_r.
Qed.

Lemma calls_users `{Bcrypt} db cs : users db `prefix_of` users (calls db cs).
Proof.
  revert db. induction cs as [|c cs IH]; intros db; [done|].
  simpl. etrans; [apply call_users|apply IH].
Qed.

Lemma prefix_fmap_lookup {A B} (g : A → B) (l1 l2 : list A) k x :
  g <$> l1 `prefix_of` g <$> l2 → l1 !! k = Some x →
  ∃ y, l2 !! k = Some y ∧ g y = g x.
Proof.
  intros Hpre Hk.
  assert ((g <$> l2) !! k = Some (g x)) as Hk2.
  { eapply prefix_lookup_Some; [|done]. by rewrite list_lookup_fmap, Hk. }
  rewrite list_lookup_fmap in Hk2.
  destruct (l2 !! k) as [y|]; [|done]. exists y. split; [done|].
  by injection Hk2.
Qed.

(** X15: no sequence of calls that write removes or moves a transaction
    or changes its id, item, lender, borrower or start date: the k-th
    transaction stays the k-th and keeps them.  Only its status and its
    borrow date are ever written. *)
Theorem X15_transactions_are_kept `{Bcrypt} db cs k t :
  transactions db !! k = Some t →
  ∃ t', transactions (calls db cs) !! k = Some t' ∧
        Transaction.id t' = Transaction.id t ∧
        Transaction.itemId t' = Transaction.itemId t ∧
        Transaction.lenderId t' = Transaction.lenderId t ∧
        Transaction.borrowerId t' = Transaction.borrowerId t ∧
        Transaction.startDate t' = Transaction.startDate t ∧
        Transaction.endDate t' = Transaction.endDate t.
Proof.
  revert db t. induction cs as [|c cs IH]; intros db t Hk.
  { exists t. by split_and!. }
  simpl.
  destruct (prefix_fmap_lookup tx_key (transactions db)
              (transactions (call db c)) k t)
    as (t1 & Hk1 & [= ? ? ? ? ? ?]); [|done|].
  { destruct (call_tx_keys db c) as [-> |(x & _ & ->)]; [done|].
    rewrite fmap_app. by apply prefix_app_r. }
  destruct (IH (call db c) t1 Hk1) as (t' & ? & ? & ? & ? & ? & ? & ?).
  exists t'. split_and!; congruence.
Qed.

Lemma X15_transactions_are_kept_witness :
  ∃ t', transactions (@calls toy_bcrypt lent
                        [Coordinator (CancelOrReturn "I1" "U2");
                         Coordinator (RequestBorrow "I1" "U3" "T2" 30)])
          !! 0%nat = Some t' ∧
        Transaction.id t' = Transaction.id loan ∧
        Transaction.itemId t' = Transaction.itemId loan ∧
        Transaction.lenderId t' = Transaction.lenderId loan ∧
        Transaction.borrowerId t' = Transaction.borrowerId loan ∧
        Transaction.startDate t' = Transaction.startDate loan ∧
        Transaction.endDate t' = Transaction.endDate loan.
Proof.
  apply (X15_transactions_are_kept (H := toy_bcrypt) lent). by vm_compute.
Defined.

(** X16: no sequence of calls that write removes or moves an item or
    changes its id, name, description or owner, and none removes, moves
    or changes a stored user: only the status of an item is ever
    written. *)
Theorem X16_items_and_users_are_kept `{Bcrypt} db cs :
  (∀ k it, items db !! k = Some it →
     ∃ it', items (calls db cs) !! k = Some it' ∧
            Item.id it' = Item.id it ∧ Item.name it' = Item.name it ∧
            Item.description it' = Item.description it ∧
            Item.ownerId it' = Item.ownerId it) ∧
  (∀ k u, users db !! k = Some u → users (calls db cs) !! k = Some u).
Proof.
  split.
  - intros k it Hk.
    destruct (prefix_fmap_lookup item_key (items db)
                (items (calls db cs)) k it)
      as (it' & Hk' & [= ? ? ? ?]); [apply calls_item_keys|done|].
    by exists it'.
  - intros k u Hk. eapply prefix_lookup_Some; [done|apply calls_users].
Qed.

Lemma X16_items_and_users_are_kept_witness :
  (∃ it', items (@calls toy_bcrypt fresh
                   [Coordinator (RequestBorrow "I1" "U2" "T1" 10);
                    Coordinator (DecideRequest "T1" "U1" "approved" 20);
                    AddItem "saw" "hand saw" "U1" "I2"]) !! 0%nat
          = Some it' ∧
          Item.id it' = "I1" ∧ Item.name it' = "drill" ∧
          Item.description it' = "cordless drill" ∧
          Item.ownerId it' = "U1") ∧
  users (@calls toy_bcrypt fresh
           [Register "Dan" "dan@example.org" "pw" "s1" "U4"]) !! 1%nat
    = Some bob.
Proof.
  split.
  - apply (proj1 (X16_items_and_users_are_kept (H := toy_bcrypt) fresh _)
             0%nat drill).
    done.
  - by apply (proj2 (X16_items_and_users_are_kept (H := toy_bcrypt) fresh _)).
Defined.

(** X17: every database that a sequence of calls makes of the empty one
    has unique user ids, emails, item ids and transaction ids, valid
    transactions, every transaction on a stored item and lent by its
    owner, every item owned by a stored user, no transaction whose
    borrower is its lender, and a borrow date on every approved and on
    no pending transaction. *)
Theorem X17_api_built_reachable `{Bcrypt} cs : api_built (calls empty_db cs).
Proof.
  assert (∀ db, api_built db → api_built (calls db cs)) as Hkept.
  { induction cs as [|c cs IH]; intros db Hdb; [done|].
    simpl. apply IH.
    destruct Hdb as (Hconf & Hkeys & Href & Hown & Hself & Hdated).
    unfold api_built. split_and!.
    - by apply call_conforms.
    - by apply call_unique_keys.
    - by apply call_referential.
    - by apply call_owners_exist.
    - by apply call_no_self_loan.
    - by apply call_dated. }
  apply Hkept, empty_db_api_built.
Qed.

(** X18: on a database that conforms to the schemas and whose
    transactions are all of stored items, as filled through the API,
    every call that is answered with a failure leaves the database as
    it was. *)
Theorem X18_failures_write_nothing `{Bcrypt} db c :
  conforms db → referential db → call_failed db c → call db c = db.
Proof.
  intros [_ Hvalid] Href Hfail.
  destruct c as [op|n e p s u|n d o u|i a]; simpl in *.
  - destruct (step db op) as [db' r] eqn:Hstep.
    destruct op as [i b u now|tid uid stt now|i b]; simpl in *.
    + apply post_transactions_inv in Hstep
        as [[-> _]|(? & ? & _ & _ & _ & _ & _ & _ & ->)]; done.
    + apply put_transactions_id_inv in Hstep
        as [[-> _]|(k & d & ? & Htx & _ & _ & [(_ & _ & ->)|(Hbad & _)])];
        [done..|].
      apply find_lookup in Htx as [Hk _]. destruct Hbad.
      eapply Forall_lookup_1; eauto.
    + apply post_transactions_cancel_inv in Hstep
        as [(-> & _)|(k & d & Hk & [Hi _] & _ & [(_ & -> & _)|[Hd Hstep]])];
        [done..|]. simpl in Hstep.
      destruct Hstep as [(Hnone & _)|(? & ? & _ & _ & ->)]; [|done].
      destruct (Href d) as (it & Hit & Hid & _);
        [by eapply list_elem_of_lookup_2|].
      apply list_find_None in Hnone.
      destruct (proj1 (Forall_forall _ _) Hnone it Hit). congruence.
  - destruct (post_users_register db n e p s u) as [db' a] eqn:Hreg.
    apply post_users_register_inv in Hreg
      as [[-> _]|(_ & _ & _ & _ & _ & _ & _ & ->)]; done.
  - destruct (post_items db n d o u) as [db' a] eqn:Hadd.
    apply post_items_inv in Hadd
      as [[-> _]|(? & _ & _ & _ & _ & _ & _ & _ & _ & ->)]; done.
  - apply put_items_id_same.
Qed.

Lemma X18_failures_write_nothing_witness :
  @call toy_bcrypt built (Coordinator (CancelOrReturn "I1" "U3")) = built.
Proof.
  assert (api_built built) as (Hc & _ & Href & _).
  { apply (calls_api_built (H := toy_bcrypt)), empty_db_api_built. }
  apply (X18_failures_write_nothing (H := toy_bcrypt) built); [done..|].
  by vm_compute.
Defined.

(** ** How the Coordinator operations follow each other *)

(** A request goes through when the item is found, the borrower is not
    its owner, no transaction of the item is active, and [save()]
    accepts the new document. *)
Lemma request_succeeds db i b u now k it :
  Item.findOne (λ d, Item.id d = i) (items db) = Some (k, it) →
  Item.ownerId it ≠ b →
  Forall (λ d, ¬ activeFor i d) (transactions db) →
  Transaction.valid (borrow_request i b u now it) →
  (u ∉ Transaction.id <$> transactions db) →
  post_transactions db i b u now
  = (with_transactions (transactions db ++ [borrow_request i b u now it]) db,
     Created (borrow_request i b u now it)).
Proof.
  intros Hk Hown Hnone Hv Hfresh.
  unfold post_transactions, Transaction.save, Transaction.findOne.
  rewrite Hk, decide_False by done.
  apply (list_find_None (activeFor i)) in Hnone. rewrite Hnone.
  simpl. destruct (decide (Transaction.valid _)); [|done].
  by rewrite decide_False.
Qed.



(** X19: [DecideRequest] refuses in order: 404 when no transaction has
    the id; otherwise 403 when the caller is not the lender of the
    transaction the route loads, whatever the decision; otherwise 400
    when the decision is neither approved nor rejected.  Nothing is
    written. *)
Theorem X19_decide_refusals db id uid decision now :
  ((∀ t, t ∈ transactions db → Transaction.id t ≠ id) →
   put_transactions_id db id uid decision now
     = (db, NotFound the_transaction)) ∧
  (∀ n d,
     Transaction.findOne (λ x, Transaction.id x = id) (transactions db)
       = Some (n, d) →
     (Transaction.lenderId d ≠ uid →
      put_transactions_id db id uid decision now = (db, Forbidden)) ∧
     (Transaction.lenderId d = uid →
      decision ≠ "approved" → decision ≠ "rejected" →
      put_transactions_id db id uid decision now = (db, InvalidArgument))).
Proof.
  unfold put_transactions_id, Transaction.findOne. split.
  - intros Hnone.
    assert (list_find (λ x, Transaction.id x = id) (transactions db) = None)
      as ->; [|done].
    by apply list_find_None, Forall_forall.
  - intros n d ->. split.
    + intros Hl. by rewrite decide_True.
    + intros Hl Ha Hr. rewrite decide_False by (intros Hne; by apply Hne).
      unfold decision_of. by rewrite !decide_False.
Qed.

Lemma X19_decide_refusals_witness :
  put_transactions_id lent "T9" "U1" "approved" 30
    = (lent, NotFound the_transaction) ∧
  put_transactions_id lent "T1" "U2" "maybe" 30 = (lent, Forbidden) ∧
  put_transactions_id lent "T1" "U1" "maybe" 30 = (lent, InvalidArgument).
Proof.
  split_and!.
  - apply (X19_decide_refusals lent "T9" "U1" "approved" 30).
    apply Forall_forall. by repeat constructor.
  - by apply (proj2 (X19_decide_refusals lent "T1" "U2" "maybe" 30)
                0%nat loan).
  - by apply (proj2 (X19_decide_refusals lent "T1" "U1" "maybe" 30)
                0%nat loan).
Defined.

(** X20: right after a successful [RequestBorrow], every further
    [RequestBorrow] for the same item, by whomever, is refused with a
    conflict and writes nothing. *)
Theorem X20_second_request_conflicts db i b u now db' t b' u' now' :
  post_transactions db i b u now = (db', Created t) →
  ∃ why, post_transactions db' i b' u' now' = (db', Conflict why).
Proof.
  intros [[_ []]|(k & it & Hk & _ & _ & _ & _ & -> & [= ->])]
    %post_transactions_inv.
  unfold post_transactions. simpl. rewrite Hk.
  case_decide; [by eexists|].
  destruct (list_find_elem_of (activeFor i)
              (transactions db ++ [borrow_request i b u now it])
              (borrow_request i b u now it)) as [[n x] Hfind].
  - apply elem_of_app. right. apply list_elem_of_here.
  - split; [done|by left].
  - unfold Transaction.findOne. rewrite Hfind. by eexists.
Qed.

Lemma X20_second_request_conflicts_witness :
  ∃ why,
    post_transactions (step fresh (RequestBorrow "I1" "U2" "T1" 10)).1
      "I1" "U3" "T2" 11
    = ((step fresh (RequestBorrow "I1" "U2" "T1" 10)).1, Conflict why).
Proof.
  apply (X20_second_request_conflicts fresh "I1" "U2" "T1" 10 _
           (borrow_request "I1" "U2" "T1" 10 drill)).
  by vm_compute.
Defined.







(** X24: on a database whose transactions are all of stored items, a
    newly listed item can be requested at once: a [RequestBorrow] for
    it by anyone but its owner answers [Created], and the ledger is
    then the one of before followed by the new pending transaction
    (the new document passing the schema under an unused id); items
    and users are as the listing left them. *)
Theorem X24_request_after_listing
    db name description ownerId uuid db' code item owner b u' now' :
  referential db →
  post_items db name description ownerId uuid
    = (db', Success code (item, owner)) →
  b ≠ ownerId →
  Transaction.valid (borrow_request uuid b u' now' item) →
  (u' ∉ Transaction.id <$> transactions db') →
  ∃ db'' transaction,
    post_transactions db' uuid b u' now' = (db'', Created transaction) ∧
    transaction = borrow_request uuid b u' now' item ∧
    transactions db'' = transactions db ++ [transaction] ∧
    transactions db'' !! length (transactions db) = Some transaction ∧
    Transaction.status transaction = pending ∧
    Transaction.itemId transaction = uuid ∧
    Transaction.borrowerId transaction = b ∧
    Transaction.lenderId transaction = ownerId ∧
    items db'' = items db ++ [item] ∧ users db'' = users db.
Proof.
  intros Href Hpost Hb Hv Hu.
  assert (post_transactions db' uuid b u' now'
          = (with_transactions
               (transactions db' ++ [borrow_request uuid b u' now' item]) db',
             Created (borrow_request uuid b u' now' item)) ∧
          transactions db' = transactions db ∧
          items db' = items db ++ [item] ∧ users db' = users db ∧
          Item.id item = uuid ∧ Item.ownerId item = ownerId)
    as (Heq & Htx & Hit & Hus & Hid & Hown).
  { revert Hpost Hb Hv Hu.
    intros
      [[_ []]|(w & _ & _ & _ & _ & _ & _ & Hfresh & -> & [= -> -> ->])]
      %post_items_inv Hb Hv Hu.
    split; [|done].
    apply (request_succeeds _ _ _ _ _ (length (items db)));
      [|by simpl|..|done|done].
    - simpl. unfold Item.findOne. apply list_find_Some. split_and!; [|done|].
      + rewrite lookup_app_r by done. by rewrite Nat.sub_diag.
      + intros j x Hj Hlt Hid. apply Hfresh. rewrite <- Hid.
        rewrite lookup_app_l in Hj by done.
        by eapply list_elem_of_fmap_2, list_elem_of_lookup_2.
    - simpl. apply Forall_forall. intros x Hx [Hid _].
      destruct (Href x Hx) as (it & Hit & Hit_id & _).
      apply Hfresh. rewrite <- Hid, <- Hit_id. by apply list_elem_of_fmap_2. }
  eexists _, _. split_and!; [exact Heq|done| |  |done..].
  - simpl. by rewrite Htx.
  - simpl. rewrite Htx, lookup_app_r by done. by rewrite Nat.sub_diag.
Qed.

Lemma X24_request_after_listing_witness :
  ∃ db'' transaction,
    post_transactions (post_items lent "saw" "hand saw" "U1" "I2").1
      "I2" "U3" "T2" 30 = (db'', Created transaction) ∧
    transaction = borrow_request "I2" "U3" "T2" 30 saw ∧
    transactions db'' = transactions lent ++ [transaction] ∧
    transactions db'' !! length (transactions lent) = Some transaction ∧
    Transaction.status transaction = pending ∧
    Transaction.itemId transaction = "I2" ∧
    Transaction.borrowerId transaction = "U3" ∧
    Transaction.lenderId transaction = "U1" ∧
    items db'' = items lent ++ [saw] ∧ users db'' = users lent.
Proof.
  apply (X24_request_after_listing lent "saw" "hand saw" "U1" "I2"
           (post_items lent "saw" "hand saw" "U1" "I2").1 201 saw
           (owner_of ann) "U3" "T2" 30).
  - intros x ->%list_elem_of_singleton.
    exists (Item.set_status borrowed drill).
    split; [apply list_elem_of_here|done].
  - by vm_compute.
  - done.
  - vm_compute. intuition congruence.
  - apply (bool_decide_unpack _). by vm_compute.
Defined.

(** X25: [GET /api/users] answers with the stored documents as they
    are, password hashes included: after a successful registration its
    body is the users of before followed by the new user, who carries
    the bcrypt hash of the password. *)
Theorem X25_users_listing_shows_hashes `{Bcrypt}
    db name email password salt uuid db' code info :
  post_users_register db name email password salt uuid
    = (db', Success code info) →
  ∃ listed,
    get_users db' = Success 200 (users db ++ [listed]) ∧
    User.id listed = uuid ∧ User.email listed = email ∧
    User.password listed = bcrypt_hash password salt.
Proof.
  intros [[_ []]|(_ & _ & _ & _ & _ & _ & -> & _)]%post_users_register_inv.
  by eexists.
Qed.

Lemma X25_users_listing_shows_hashes_witness :
  ∃ listed,
    get_users
      (post_users_register (H := toy_bcrypt) fresh "Dan" "dan@example.org"
         "pw" "s1" "U4").1
    = Success 200 (users fresh ++ [listed]) ∧
    User.id listed = "U4" ∧ User.email listed = "dan@example.org" ∧
    User.password listed = "s1pw".
Proof.
  apply (X25_users_listing_shows_hashes (H := toy_bcrypt) fresh "Dan"
           "dan@example.org" "pw" "s1" "U4" _ 201
           (mkUserInfo "U4" "Dan" "dan@example.org")).
  by vm_compute.
Defined.
